(** * A shallow embedding of mem_allocator.c

    The allocator keeps a singly linked chain of block headers inside the
    program's data segment, each header sitting immediately before the
    payload it describes.  [malloc] scans the chain first-fit and otherwise
    moves the program break with [sbrk]; [free] gives the trailing block back
    to the system and marks every other block reusable; [calloc] and
    [realloc] are written on top of the two.

    The embedding follows the C text statement by statement.

    - [size_t] is a 64-bit unsigned integer, written as a [Z] with the
      wrap-around spelled out ([wrap]); the [intptr_t] argument of [sbrk] is
      obtained through [to_intptr].  The target is an LP64 ABI.
    - Pointers are addresses in [Z], [NULL] is [0].  The heap is seen through
      two typed stores keyed by address: the header records ([hdrs]) and the
      payload bytes ([bytes]).  Stores keep their contents when the break
      moves, as physical memory does, and are not bounds-checked against it.
    - [sbrk] belongs to the C library.  It is modelled after its manual page:
      the break moves inside a fixed window [heap_base .. heap_limit], the old
      break is returned, and [(void* )-1] signals failure.
    - The mutex calls bracket every critical section; a single thread of
      control is modelled, so they leave no trace here.
    - A loop that walks the chain is given as much fuel as there are header
      records plus one, which is enough for every chain without repetition
      ([chain_fuel_enough]).  A run that uses it up is a [Diverge];
      dereferencing an address that holds no header is [Undef]. *)

From Stdlib Require Import ZArith Lia Sorted.
From Stdlib.Init Require Import Byte.
From stdpp Require Import base option list gmap fin_maps.

Local Open Scope Z_scope.

(** ** Machine integers *)

(** [SIZE_MAX + 1] and [INTPTR_MAX + 1]. *)
Definition SIZE_MOD : Z := 2 ^ 64.
Definition INTPTR_BOUND : Z := 2 ^ 63.

(** Arithmetic on [size_t] wraps. *)
Definition wrap (x : Z) : Z := x mod SIZE_MOD.

(** Conversion of a [size_t] to the signed [intptr_t] that [sbrk] takes. *)
Definition to_intptr (x : Z) : Z := if x <? INTPTR_BOUND then x else x - SIZE_MOD.

Definition is_size_t (x : Z) : Prop := 0 <= x < SIZE_MOD.

Definition NULL : Z := 0.

(** [(void* )-1], the failure value of [sbrk]. *)
Definition SBRK_FAILED : Z := SIZE_MOD - 1.

(** ** Block headers

    [union header { struct { size_t size; unsigned is_free;
    union header *next; } s; ALIGN stub; }].  The flag only ever holds 0 or
    1 and is kept as a [bool]. *)

Record header_t : Type := Header {
  size : Z;
  is_free : bool;
  next : Z
}.

(** [sizeof(header_t)] on LP64: 8 bytes of size, 4 of flag, 4 of padding and
    8 of pointer; the 16-byte [stub] member is shorter and adds nothing. *)
Definition sizeof_header_t : Z := 24.

Arguments sizeof_header_t : simpl never.

Definition set_is_free (h : header_t) (b : bool) : header_t :=
  {| size := size h; is_free := b; next := next h |}.

Definition set_next (h : header_t) (n : Z) : header_t :=
  {| size := size h; is_free := is_free h; next := n |}.

(** ** Process state *)

Record state : Type := State {
  head : Z;
  tail : Z;
  hdrs : gmap Z header_t;
  bytes : Z -> byte;
  brk : Z;
  heap_base : Z;
  heap_limit : Z
}.

Definition set_hdrs (s : state) (m : gmap Z header_t) : state :=
  {| head := head s; tail := tail s; hdrs := m; bytes := bytes s;
     brk := brk s; heap_base := heap_base s; heap_limit := heap_limit s |}.

Definition set_bytes (s : state) (b : Z -> byte) : state :=
  {| head := head s; tail := tail s; hdrs := hdrs s; bytes := b;
     brk := brk s; heap_base := heap_base s; heap_limit := heap_limit s |}.

Definition set_brk (s : state) (b : Z) : state :=
  {| head := head s; tail := tail s; hdrs := hdrs s; bytes := bytes s;
     brk := b; heap_base := heap_base s; heap_limit := heap_limit s |}.

Definition set_chain (s : state) (hd tl : Z) (m : gmap Z header_t) : state :=
  {| head := hd; tail := tl; hdrs := m; bytes := bytes s;
     brk := brk s; heap_base := heap_base s; heap_limit := heap_limit s |}.

(** The state of a fresh process: [head = NULL, tail = NULL], nothing on the
    heap, the break at the bottom of its window. *)
Definition init (base limit : Z) : state :=
  {| head := NULL; tail := NULL; hdrs := ∅; bytes := fun _ => x00;
     brk := base; heap_base := base; heap_limit := limit |}.

(** ** Outcomes of a call *)

Inductive outcome (A : Type) : Type :=
| Ret (a : A)
| Undef
| Diverge.

Arguments Ret {A} a.
Arguments Undef {A}.
Arguments Diverge {A}.

Definition bind {A B : Type} (o : outcome A) (k : A -> outcome B) : outcome B :=
  match o with
  | Ret a => k a
  | Undef => Undef
  | Diverge => Diverge
  end.

#[global] Instance outcome_ret : MRet outcome := fun A a => Ret a.
#[global] Instance outcome_bind : MBind outcome := fun A B k o => bind o k.

(** ** The system's side: [sbrk], [memset], [memcpy] *)

Definition sbrk (s : state) (increment : Z) : state * Z :=
  let nb := brk s + increment in
  if (heap_base s <=? nb) && (nb <=? heap_limit s)
  then (set_brk s nb, brk s)
  else (s, SBRK_FAILED).

Definition memset (m : Z -> byte) (dst : Z) (c : byte) (n : Z) : Z -> byte :=
  fun a => if (dst <=? a) && (a <? dst + n) then c else m a.

(** [memcpy] of two regions that do not overlap. *)
Definition memcpy (m : Z -> byte) (dst src n : Z) : Z -> byte :=
  fun a => if (dst <=? a) && (a <? dst + n) then m (src + (a - dst)) else m a.

(** ** get_free_block *)

Fixpoint get_free_block_loop (fuel : nat) (m : gmap Z header_t)
    (curr sz : Z) : outcome Z :=
  match fuel with
  | O => Diverge
  | S fuel' =>
      if curr =? NULL then Ret NULL
      else match m !! curr with
           | None => Undef
           | Some h =>
               if is_free h && (sz <=? size h) then Ret curr
               else get_free_block_loop fuel' m (next h) sz
           end
  end.

Definition chain_fuel (m : gmap Z header_t) : nat := S (base.size m).

Definition get_free_block (s : state) (sz : Z) : outcome Z :=
  get_free_block_loop (chain_fuel (hdrs s)) (hdrs s) (head s) sz.

(** ** malloc *)

Definition malloc (s : state) (sz : Z) : outcome (state * Z) :=
  if sz =? 0 then Ret (s, NULL)
  else
    header ← get_free_block s sz;
    if negb (header =? NULL) then
      match hdrs s !! header with
      | None => Undef
      | Some h =>
          Ret (set_hdrs s (<[header := set_is_free h false]> (hdrs s)),
               header + sizeof_header_t)
      end
    else
      let total_size := wrap (sizeof_header_t + sz) in
      let '(s1, block) := sbrk s (to_intptr total_size) in
      if block =? SBRK_FAILED then Ret (s1, NULL)
      else
        let header := block in
        let m1 := <[header := Header sz false NULL]> (hdrs s1) in
        let head1 := if head s1 =? NULL then header else head s1 in
        m2 ← (if negb (tail s1 =? NULL)
              then match m1 !! tail s1 with
                   | None => Undef
                   | Some t => Ret (<[tail s1 := set_next t header]> m1)
                   end
              else Ret m1);
        Ret (set_chain s1 head1 header m2, header + sizeof_header_t).

(** ** free *)

(** The loop that looks for the node in front of [tail].  It carries the
    header store and [tail], the two things its body assigns. *)
Fixpoint free_loop (fuel : nat) (m : gmap Z header_t) (tl tmp : Z)
    : outcome (gmap Z header_t * Z) :=
  match fuel with
  | O => Diverge
  | S fuel' =>
      if tmp =? NULL then Ret (m, tl)
      else match m !! tmp with
           | None => Undef
           | Some h =>
               let '(m1, tl1) :=
                 if next h =? tl then (<[tmp := set_next h NULL]> m, tmp)
                 else (m, tl) in
               match m1 !! tmp with
               | None => Undef
               | Some h1 => free_loop fuel' m1 tl1 (next h1)
               end
           end
  end.

Definition free (s : state) (block : Z) : outcome state :=
  if block =? NULL then Ret s
  else
    let header := block - sizeof_header_t in
    let '(s0, programbreak) := sbrk s 0 in
    match hdrs s0 !! header with
    | None => Undef
    | Some h =>
        if block + size h =? programbreak then
          s1 ← (if head s0 =? tail s0
                then Ret (set_chain s0 NULL NULL (hdrs s0))
                else r ← free_loop (chain_fuel (hdrs s0)) (hdrs s0)
                                   (tail s0) (head s0);
                     Ret (set_chain s0 (head s0) (snd r) (fst r)));
          match hdrs s1 !! header with
          | None => Undef
          | Some h1 =>
              Ret (fst (sbrk s1 (to_intptr
                          (wrap (wrap (0 - size h1) - sizeof_header_t)))))
          end
        else
          Ret (set_hdrs s0 (<[header := set_is_free h true]> (hdrs s0)))
    end.

(** ** calloc *)

Definition calloc (s : state) (num nsize : Z) : outcome (state * Z) :=
  if (num =? 0) || (nsize =? 0) then Ret (s, NULL)
  else
    let sz := wrap (num * nsize) in
    if negb (nsize =? sz / num) then Ret (s, NULL)
    else
      '(s1, block) ← malloc s sz;
      if block =? NULL then Ret (s1, NULL)
      else Ret (set_bytes s1 (memset (bytes s1) block x00 sz), block).

(** ** realloc *)

Definition realloc (s : state) (block sz : Z) : outcome (state * Z) :=
  if (block =? NULL) || (sz =? 0) then malloc s sz
  else
    let header := block - sizeof_header_t in
    match hdrs s !! header with
    | None => Undef
    | Some h =>
        if sz <=? size h then Ret (s, block)
        else
          '(s1, ret) ← malloc s sz;
          if negb (ret =? NULL) then
            match hdrs s1 !! header with
            | None => Undef
            | Some h1 =>
                let s2 := set_bytes s1 (memcpy (bytes s1) ret block (size h1)) in
                s3 ← free s2 block;
                Ret (s3, ret)
            end
          else Ret (s1, ret)
    end.

(** ** print_mem_list

    The debugging dump.  What it prints is returned as data: the pair
    printed by the first [printf] and one row per pass through the loop,
    holding the address of the header and its three fields. *)



(** ** lsh_split_line (main.c), a client of malloc and realloc

    The shell splits a line into tokens with [strtok] and collects the
    token pointers in an array that it gets from [malloc] and grows with
    [realloc], 64 slots at a time.

    - The line is the list of the bytes in front of its terminating NUL.
    - [strtok] belongs to the C library and is modelled after its manual
      page: it skips delimiters, returns the longest run of other bytes, and
      resumes behind the delimiter that ended it.  A token pointer is
      represented by the token it points to.
    - The contents of the array are kept beside the byte store, as a map
      from slot index to token; an absent slot stands for a [NULL] or
      unwritten entry.  A write to slot [i] is allowed when the array's
      block is in use and stores a size of at least [(i + 1)] pointers;
      any other write is [Undef].
    - [bufsize] and [position] are [int]s; signed overflow is [Undef].
    - [exit(EXIT_FAILURE)] ends the process: [Exited]. *)

Definition LSH_TOK_BUFSIZE : Z := 64.

(** [" \t\r\n\a"]. *)
Definition LSH_TOK_DELIM : list byte := [x20; x09; x0d; x0a; x07].

(** [sizeof(char * )] on LP64. *)
Definition sizeof_ptr : Z := 8.

Arguments sizeof_ptr : simpl never.

Definition INT_MAX : Z := 2 ^ 31 - 1.

Definition EXIT_FAILURE : Z := 1.

Inductive finished (A : Type) : Type :=
| Returned (a : A)
| Exited (status : Z).

Arguments Returned {A} a.
Arguments Exited {A} status.

Definition is_delim (c : byte) : bool := existsb (Byte.eqb c) LSH_TOK_DELIM.

Fixpoint skip_delims (l : list byte) : list byte :=
  match l with
  | [] => []
  | c :: r => if is_delim c then skip_delims r else l
  end.

(** The token at the front of [l] and what is left behind the delimiter
    that ends it. *)
Fixpoint scan_token (l : list byte) : list byte * list byte :=
  match l with
  | [] => ([], [])
  | c :: r =>
      if is_delim c then ([], r)
      else let '(tok, rest) := scan_token r in (c :: tok, rest)
  end.

(** One call of [strtok] on what is left of the line: [None] for a [NULL]
    result, otherwise the token and what is left after it. *)
Definition strtok (rest : list byte) : option (list byte * list byte) :=
  match skip_delims rest with
  | [] => None
  | l => Some (scan_token l)
  end.

(** [tokens[i] = ...] is inside the block granted for [tokens]. *)
Definition slot_writable (s : state) (tokens i : Z) : bool :=
  match hdrs s !! (tokens - sizeof_header_t) with
  | Some h =>
      negb (is_free h) && (0 <=? i) && ((i + 1) * sizeof_ptr <=? size h)
  | None => false
  end.

Fixpoint lsh_split_loop (fuel : nat) (s : state)
    (tokens bufsize position : Z) (arr : gmap Z (list byte))
    (token : option (list byte * list byte))
    : outcome (finished (state * Z * gmap Z (list byte))) :=
  match fuel with
  | O => Diverge
  | S fuel' =>
      match token with
      | None =>
          if slot_writable s tokens position
          then Ret (Returned (s, tokens, delete position arr))
          else Undef
      | Some (tok, rest) =>
          if slot_writable s tokens position then
            let arr := <[position := tok]> arr in
            let position := position + 1 in
            if bufsize <=? position then
              if INT_MAX <? bufsize + LSH_TOK_BUFSIZE then Undef
              else
                let bufsize := bufsize + LSH_TOK_BUFSIZE in
                '(s1, p) ← realloc s tokens (wrap (bufsize * sizeof_ptr));
                if p =? NULL then Ret (Exited EXIT_FAILURE)
                else lsh_split_loop fuel' s1 p bufsize position arr
                                    (strtok rest)
            else lsh_split_loop fuel' s tokens bufsize position arr
                                (strtok rest)
          else Undef
      end
  end.

Definition lsh_split_line (s : state) (line : list byte)
    : outcome (finished (state * Z * gmap Z (list byte))) :=
  let bufsize := LSH_TOK_BUFSIZE in
  let position := 0 in
  '(s1, tokens) ← malloc s (wrap (bufsize * sizeof_ptr));
  if tokens =? NULL then Ret (Exited EXIT_FAILURE)
  else lsh_split_loop (S (length line)) s1 tokens bufsize position ∅
                      (strtok line).

(** * Properties *)

(** ** The chain and the layout of the heap *)

(** [chain_at m a l]: following [next] from address [a] in store [m] visits
    exactly the nodes [l] and then reaches [NULL]. *)
Fixpoint chain_at (m : gmap Z header_t) (a : Z) (l : list Z) : Prop :=
  match l with
  | [] => a = NULL
  | x :: l' =>
      a = x /\ x <> NULL /\ exists h, m !! x = Some h /\ chain_at m (next h) l'
  end.

Definition last_or_null (l : list Z) : Z := default NULL (last l).

(** Chain integrity: the nodes reachable from [head] form the list [l], no
    node occurs twice, and [tail] is its last node ([NULL] when it is
    empty). *)
Definition chain_ok (s : state) (l : list Z) : Prop :=
  chain_at (hdrs s) (head s) l /\ NoDup l /\ tail s = last_or_null l.

(** [layout m lo l hi]: the blocks [l] lie in address order between [lo] and
    [hi], each taking its header and its payload, without overlap. *)
Fixpoint layout (m : gmap Z header_t) (lo : Z) (l : list Z) (hi : Z) : Prop :=
  match l with
  | [] => lo <= hi
  | x :: l' =>
      lo <= x /\
      exists h, m !! x = Some h /\ 0 < size h /\
                layout m (x + sizeof_header_t + size h) l' hi
  end.

(** The states the allocator builds: an intact chain whose blocks are laid
    out in creation order below the break, inside the window of [sbrk]. *)
Definition wf (s : state) (l : list Z) : Prop :=
  chain_at (hdrs s) (head s) l /\
  tail s = last_or_null l /\
  layout (hdrs s) (heap_base s) l (brk s) /\
  0 < heap_base s /\
  brk s <= heap_limit s /\
  heap_limit s < INTPTR_BOUND.

(** A block of the chain that fits a request. *)
Definition fits (m : gmap Z header_t) (sz : Z) (x : Z) : bool :=
  match m !! x with
  | Some h => is_free h && (sz <=? size h)
  | None => false
  end.

(** First fit over the chain, as a list search. *)
Definition first_fit (m : gmap Z header_t) (sz : Z) (l : list Z) : Z :=
  default NULL (find (fits m sz) l).

(** ** Sample states *)

(** One block of 100 bytes in use. *)
Definition one_block : state :=
  State 4096 4096 {[ 4096 := Header 100 false NULL ]} (fun _ => x00)
        4220 4096 8192.

(** The same block with no room left above it. *)
Definition one_block_full : state :=
  State 4096 4096 {[ 4096 := Header 100 false NULL ]} (fun _ => x00)
        4220 4096 4220.

(** A free block of 100 bytes followed by a block of 8 bytes in use. *)
Definition two_blocks : state :=
  State 4096 4220
        (<[4096 := Header 100 true 4220]> {[ 4220 := Header 8 false NULL ]})
        (fun _ => x00) 4252 4096 8192.

(** The first-fit-or-grow rule read without the failure of [sbrk]: a
    fitting block is taken, and when there is none the heap always grows by
    a new block at the old break. *)
Definition first_fit_or_grow (s : state) (l : list Z) (sz : Z) : Prop :=
  (forall x, find (fits (hdrs s) sz) l = Some x ->
     exists h, hdrs s !! x = Some h /\
       malloc s sz =
         Ret (set_hdrs s (<[x := set_is_free h false]> (hdrs s)),
              x + sizeof_header_t)) /\
  (find (fits (hdrs s) sz) l = None ->
     exists s', malloc s sz = Ret (s', brk s + sizeof_header_t) /\
       hdrs s' !! brk s = Some (Header sz false NULL) /\
       chain_ok s' (l ++ [brk s]) /\
       brk s' = brk s + (sizeof_header_t + sz)).

(** Three calls on a fresh process, the second with the largest size whose
    sum with the header size wraps to zero. *)
Definition wrapped_run : outcome (state * Z) :=
  '(s1, _) ← malloc (init 4096 8192) 8;
  '(s2, _) ← malloc s1 (SIZE_MOD - sizeof_header_t);
  malloc s2 8.

(** The state [wrapped_run] ends in. *)
Definition wrapped_state : state :=
  State 4096 4128
        (<[4096 := Header 8 false 4128]> {[ 4128 := Header 8 false 4128 ]})
        (fun _ => x00) 4160 4096 8192.

(** [malloc(100)], [malloc(8)], [free] of the first block, [malloc(10)]:
    the two addresses of the first block and the size its header stores at
    the end. *)
Definition reuse_run : outcome (Z * Z * option Z) :=
  '(s1, p) ← malloc (init 4096 8192) 100;
  '(s2, _) ← malloc s1 8;
  s3 ← free s2 p;
  '(s4, r) ← malloc s3 10;
  Ret (p, r, size <$> hdrs s4 !! (r - sizeof_header_t)).


(** [one_block] after [malloc(200)]: two blocks in use. *)
Definition grown_block : state :=
  State 4096 4220
        (<[4096 := Header 100 false 4220]>
           (<[4220 := Header 200 false NULL]> (hdrs one_block)))
        (fun _ => x00) 4444 4096 8192.

(** [two_blocks] after [free] of its last block: the free block in front
    is now the tail. *)
Definition two_blocks_released : state :=
  State 4096 4096 (<[4096 := Header 100 true NULL]> (hdrs two_blocks))
        (fun _ => x00) 4220 4096 8192.

(** [two_blocks] after [realloc] of its last block to 50 bytes: the payload
    moved into the free block in front and the old block was released. *)
Definition two_blocks_moved : state :=
  State 4096 4096 (<[4096 := Header 100 false NULL]> (hdrs two_blocks))
        (memcpy (bytes two_blocks) 4120 4244 8) 4220 4096 8192.

(** ** The tokens of a line *)

(** The tokens that repeated calls of [strtok] return. *)
Fixpoint strtok_all (fuel : nat) (token : option (list byte * list byte))
    : list (list byte) :=
  match fuel with
  | O => []
  | S fuel' =>
      match token with
      | None => []
      | Some (tok, rest) => tok :: strtok_all fuel' (strtok rest)
      end
  end.

Definition tokens_of (line : list byte) : list (list byte) :=
  strtok_all (S (length line)) (strtok line).

(** The calls of [strtok] that a pending result still allows. *)
Definition token_fuel (token : option (list byte * list byte)) : nat :=
  match token with
  | None => O
  | Some (_, rest) => S (length rest)
  end.

(** Tokens written into consecutive slots from slot [i] on. *)
Fixpoint fill_slots (arr : gmap Z (list byte)) (i : Z)
    (toks : list (list byte)) : gmap Z (list byte) :=
  match toks with
  | [] => arr
  | t :: r => fill_slots (<[i := t]> arr) (i + 1) r
  end.

(** A sample line, ["ls  -l\n"]. *)
Definition sample_line : list byte := [x6c; x73; x20; x20; x2d; x6c; x0a].



(** ** Tiling, calls and reachable states *)

(** [packed m lo l hi]: the blocks [l] tile the addresses from [lo] to [hi]
    exactly, each header starting where the payload before it ends. *)
Fixpoint packed (m : gmap Z header_t) (lo : Z) (l : list Z) (hi : Z) : Prop :=
  match l with
  | [] => lo = hi
  | x :: l' =>
      x = lo /\
      exists h, m !! x = Some h /\
                packed m (x + sizeof_header_t + size h) l' hi
  end.

(** The bytes a block takes from the heap, header and payload. *)
Definition footprint (m : gmap Z header_t) (x : Z) : Z :=
  match m !! x with
  | Some h => sizeof_header_t + size h
  | None => 0
  end.

Definition heap_used (m : gmap Z header_t) (l : list Z) : Z :=
  foldr (fun x acc => footprint m x + acc) 0 l.

(** A well-formed state whose blocks tile the heap up to the break. *)
Definition tiled (s : state) (l : list Z) : Prop :=
  wf s l /\ packed (hdrs s) (heap_base s) l (brk s).

(** The four entry points as calls. *)
Inductive call : Type :=
| Malloc (sz : Z)
| Calloc (num nsize : Z)
| Realloc (block sz : Z)
| Free (block : Z).

Definition run_call (s : state) (c : call) : outcome (state * Z) :=
  match c with
  | Malloc sz => malloc s sz
  | Calloc num nsize => calloc s num nsize
  | Realloc block sz => realloc s block sz
  | Free block => s' ← free s block; Ret (s', NULL)
  end.

(** [block] is the payload address of a block linked in the chain. *)
Definition in_chain (s : state) (block : Z) : Prop :=
  exists l, chain_at (hdrs s) (head s) l /\ block - sizeof_header_t ∈ l.

(** A request whose footprint, header included, fits [intptr_t]. *)
Definition fits_intptr (sz : Z) : Prop :=
  0 <= sz /\ sz + sizeof_header_t < INTPTR_BOUND.

(** The calls a client may make: sizes of type [size_t] whose footprint
    fits [intptr_t], and pointers that are [NULL] or were handed out and are
    still linked. *)
Definition valid_call (s : state) (c : call) : Prop :=
  match c with
  | Malloc sz => fits_intptr sz
  | Calloc num nsize =>
      is_size_t num /\ is_size_t nsize /\
      (num * nsize < SIZE_MOD -> fits_intptr (num * nsize))
  | Realloc block sz => (block = NULL \/ in_chain s block) /\ fits_intptr sz
  | Free block => block = NULL \/ in_chain s block
  end.

(** The states a process gets to by valid calls. *)
Inductive reachable (base limit : Z) : state -> Prop :=
| reach_init : reachable base limit (init base limit)
| reach_call (s s' : state) (c : call) (r : Z) :
    reachable base limit s -> valid_call s c ->
    run_call s c = Ret (s', r) -> reachable base limit s'.

(** ** Basic facts *)

Lemma sizeof_header_t_pos : 0 < sizeof_header_t.
Proof. reflexivity. Qed.

Lemma set_is_free_same (h : header_t) : set_is_free h (is_free h) = h.
Proof. destruct h; reflexivity. Qed.

Lemma set_next_same (h : header_t) : set_next h (next h) = h.
Proof. destruct h; reflexivity. Qed.

Lemma last_or_null_snoc (l : list Z) (x : Z) : last_or_null (l ++ [x]) = x.
Proof. unfold last_or_null. rewrite last_snoc. reflexivity. Qed.

Lemma last_or_null_elem (l : list Z) :
  l <> [] -> last_or_null l ∈ l.
Proof.
  intros Hne. destruct (last l) as [x|] eqn:E.
  - unfold last_or_null. rewrite E. simpl. apply last_Some_elem_of. exact E.
  - apply last_None in E. contradiction.
Qed.

Lemma chain_at_head_null (m : gmap Z header_t) (a : Z) (l : list Z) :
  chain_at m a l -> (a = NULL <-> l = []).
Proof.
  destruct l as [|x l']; simpl.
  - intros ->. tauto.
  - intros (-> & Hx & _). split; [contradiction | discriminate].
Qed.

Lemma chain_at_nonnull (m : gmap Z header_t) (a : Z) (l : list Z) :
  chain_at m a l -> forall x, x ∈ l -> x <> NULL.
Proof.
  revert a. induction l as [|y l' IH]; simpl; intros a H x Hx.
  - apply elem_of_nil in Hx. contradiction.
  - destruct H as (-> & Hy & h & Hm & Hrest).
    apply elem_of_cons in Hx as [-> | Hx]; [exact Hy | eauto].
Qed.

Lemma chain_at_lookup (m : gmap Z header_t) (a : Z) (l : list Z) :
  chain_at m a l -> forall x, x ∈ l -> is_Some (m !! x).
Proof.
  revert a. induction l as [|y l' IH]; simpl; intros a H x Hx.
  - apply elem_of_nil in Hx. contradiction.
  - destruct H as (-> & Hy & h & Hm & Hrest).
    apply elem_of_cons in Hx as [-> | Hx]; [eauto | eauto].
Qed.

(** The chain is a function of the store: two walks from one address agree. *)
Lemma chain_at_unique (m : gmap Z header_t) (a : Z) (l1 l2 : list Z) :
  chain_at m a l1 -> chain_at m a l2 -> l1 = l2.
Proof.
  revert a l2. induction l1 as [|x l1 IH]; intros a [|y l2]; simpl.
  - reflexivity.
  - intros -> (E & Hy & _). congruence.
  - intros (E & Hx & _) ->. congruence.
  - intros (-> & _ & h1 & Hm1 & H1) (E & _ & h2 & Hm2 & H2). subst y.
    rewrite Hm1 in Hm2. injection Hm2 as <-. f_equal. eauto.
Qed.

(** The last node of a chain points to [NULL]. *)
Lemma chain_at_snoc_inv (m : gmap Z header_t) (a : Z) (l : list Z) (t : Z) :
  chain_at m a (l ++ [t]) ->
  exists h, m !! t = Some h /\ next h = NULL /\ t <> NULL.
Proof.
  revert a. induction l as [|x l IH]; simpl; intros a H.
  - destruct H as (-> & Ht & h & Hm & Hn). eauto.
  - destruct H as (-> & _ & h & _ & Hrest). eauto.
Qed.

(** Stores that agree on the links of the nodes of [l] have the same chain. *)
Lemma chain_at_agree (m m' : gmap Z header_t) (a : Z) (l : list Z) :
  (forall x h, x ∈ l -> m !! x = Some h ->
     exists h', m' !! x = Some h' /\ next h' = next h) ->
  chain_at m a l -> chain_at m' a l.
Proof.
  revert a. induction l as [|y l' IH]; simpl; intros a Hag H; [exact H|].
  destruct H as (-> & Hy & h & Hm & Hrest).
  destruct (Hag y h) as (h' & Hm' & Hn); [apply elem_of_cons; auto | exact Hm |].
  split; [reflexivity|]. split; [exact Hy|]. exists h'. split; [exact Hm'|].
  rewrite Hn. apply IH; [|exact Hrest].
  intros x hx Hx. apply Hag. apply elem_of_cons. auto.
Qed.

Lemma layout_agree (m m' : gmap Z header_t) (lo hi : Z) (l : list Z) :
  (forall x h, x ∈ l -> m !! x = Some h ->
     exists h', m' !! x = Some h' /\ size h' = size h) ->
  layout m lo l hi -> layout m' lo l hi.
Proof.
  revert lo. induction l as [|y l' IH]; simpl; intros lo Hag H; [exact H|].
  destruct H as (Hlo & h & Hm & Hsz & Hrest).
  destruct (Hag y h) as (h' & Hm' & Hs); [apply elem_of_cons; auto | exact Hm |].
  split; [exact Hlo|]. exists h'. rewrite Hs. split; [exact Hm'|].
  split; [exact Hsz|]. apply IH; [|exact Hrest].
  intros x hx Hx. apply Hag. apply elem_of_cons. auto.
Qed.

Lemma layout_le (m : gmap Z header_t) (lo hi : Z) (l : list Z) :
  layout m lo l hi -> lo <= hi.
Proof.
  revert lo. induction l as [|y l' IH]; simpl; intros lo H; [exact H|].
  destruct H as (Hlo & h & Hm & Hsz & Hrest). apply IH in Hrest.
  pose proof sizeof_header_t_pos. lia.
Qed.

(** Every block of a layout lies, header and payload, between the bounds. *)
Lemma layout_elem (m : gmap Z header_t) (lo hi : Z) (l : list Z) (x : Z) :
  layout m lo l hi -> x ∈ l ->
  lo <= x /\ exists h, m !! x = Some h /\ 0 < size h /\
                       x + sizeof_header_t + size h <= hi.
Proof.
  revert lo. induction l as [|y l' IH]; simpl; intros lo H Hx.
  - apply elem_of_nil in Hx. contradiction.
  - destruct H as (Hlo & h & Hm & Hsz & Hrest).
    apply elem_of_cons in Hx as [-> | Hx].
    + split; [exact Hlo|]. exists h. repeat split; try assumption.
      eapply layout_le; eassumption.
    + destruct (IH _ Hrest Hx) as (Hle & Hex). split; [|exact Hex].
      pose proof sizeof_header_t_pos. lia.
Qed.

(** Only the last block of a layout can end at the upper bound. *)
Lemma layout_snoc_before (m : gmap Z header_t) (lo hi : Z) (l : list Z) (t x : Z) :
  layout m lo (l ++ [t]) hi -> x ∈ l ->
  exists h, m !! x = Some h /\ x + sizeof_header_t + size h <= t.
Proof.
  revert lo. induction l as [|y l' IH]; simpl; intros lo H Hx.
  - apply elem_of_nil in Hx. contradiction.
  - destruct H as (Hlo & h & Hm & Hsz & Hrest).
    apply elem_of_cons in Hx as [-> | Hx].
    + exists h. split; [exact Hm|].
      destruct (layout_elem _ _ _ _ t Hrest) as (Ht & _); [|exact Ht].
      apply elem_of_app. right. apply list_elem_of_singleton. reflexivity.
    + eauto.
Qed.

Lemma layout_snoc_inv (m : gmap Z header_t) (lo hi : Z) (l : list Z) (t : Z) :
  layout m lo (l ++ [t]) hi -> layout m lo l t.
Proof.
  revert lo. induction l as [|y l' IH]; simpl; intros lo H.
  - tauto.
  - destruct H as (Hlo & h & Hm & Hsz & Hrest).
    split; [exact Hlo|]. exists h. eauto.
Qed.

Lemma layout_snoc (m : gmap Z header_t) (lo hi : Z) (l : list Z) (t : Z) (ht : header_t) :
  layout m lo l t -> m !! t = Some ht -> 0 < size ht ->
  t + sizeof_header_t + size ht <= hi ->
  layout m lo (l ++ [t]) hi.
Proof.
  revert lo. induction l as [|y l' IH]; simpl; intros lo H Hm Hs Hhi.
  - split; [exact H|]. exists ht. auto.
  - destruct H as (Hlo & h & Hmy & Hsz & Hrest).
    split; [exact Hlo|]. exists h. eauto.
Qed.

Lemma layout_NoDup (m : gmap Z header_t) (lo hi : Z) (l : list Z) :
  layout m lo l hi -> NoDup l.
Proof.
  revert lo. induction l as [|y l' IH]; simpl; intros lo H.
  - apply NoDup_nil. exact I.
  - destruct H as (Hlo & h & Hm & Hsz & Hrest).
    apply NoDup_cons. split; [|eauto].
    intros Hin. destruct (layout_elem _ _ _ _ y Hrest Hin) as (Hle & _).
    pose proof sizeof_header_t_pos. lia.
Qed.

Lemma wf_chain_ok (s : state) (l : list Z) : wf s l -> chain_ok s l.
Proof.
  intros (Hc & Ht & Hl & _). split; [exact Hc|]. split; [|exact Ht].
  eapply layout_NoDup; eassumption.
Qed.

(** A chain without repetition is no longer than the header store is large,
    so [chain_fuel] is enough to walk it. *)
Lemma chain_length_le_size (m : gmap Z header_t) (l : list Z) :
  NoDup l -> (forall x, x ∈ l -> is_Some (m !! x)) ->
  (length l <= base.size m)%nat.
Proof.
  revert m. induction l as [|x l IH]; intros m Hnd Hin; simpl; [lia|].
  apply NoDup_cons in Hnd as [Hx Hnd].
  destruct (Hin x) as [h Hh]; [apply elem_of_cons; auto|].
  assert (Hle : (length l <= base.size (delete x m))%nat).
  { apply IH; [exact Hnd|]. intros y Hy.
    rewrite lookup_delete_ne; [apply Hin; apply elem_of_cons; auto|].
    intros ->. contradiction. }
  rewrite map_size_delete_Some in Hle by eauto. 
  assert (base.size m <> 0%nat).
  { apply map_size_ne_0_lookup_2 with x. eauto. }
  lia.
Qed.

Lemma chain_fuel_enough (m : gmap Z header_t) (a : Z) (l : list Z) :
  chain_at m a l -> NoDup l -> (length l < chain_fuel m)%nat.
Proof.
  intros Hc Hnd. unfold chain_fuel.
  pose proof (chain_length_le_size m l Hnd (chain_at_lookup m a l Hc)). lia.
Qed.

(** ** The search *)

Lemma get_free_block_loop_spec (fuel : nat) (m : gmap Z header_t)
    (a sz : Z) (l : list Z) :
  chain_at m a l -> (length l < fuel)%nat ->
  get_free_block_loop fuel m a sz = Ret (first_fit m sz l).
Proof.
  revert a fuel. induction l as [|x l IH]; simpl; intros a fuel Hc Hf.
  - subst a. destruct fuel as [|f]; [lia|]. reflexivity.
  - destruct Hc as (-> & Hx & h & Hm & Hrest).
    destruct fuel as [|f]; [lia|]. simpl.
    apply Z.eqb_neq in Hx. rewrite Hx, Hm.
    unfold first_fit. simpl. unfold fits at 1. rewrite Hm.
    destruct (is_free h && (sz <=? size h)); [reflexivity|].
    apply IH; [exact Hrest | lia].
Qed.

Lemma get_free_block_spec (s : state) (sz : Z) (l : list Z) :
  chain_ok s l -> get_free_block s sz = Ret (first_fit (hdrs s) sz l).
Proof.
  intros (Hc & Hnd & _). apply get_free_block_loop_spec; [exact Hc|].
  eapply chain_fuel_enough; eassumption.
Qed.

(** What [find] finds is the first fitting node in chain order. *)
Lemma find_first (f : Z -> bool) (l : list Z) (x : Z) :
  find f l = Some x <->
  exists l1 l2, l = l1 ++ x :: l2 /\ f x = true /\
                forall y, y ∈ l1 -> f y = false.
Proof.
  split.
  - induction l as [|y l IH]; simpl; [discriminate|].
    destruct (f y) eqn:E.
    + intros [= ->]. exists [], l. split; [reflexivity|]. split; [exact E|].
      intros z Hz. apply elem_of_nil in Hz. contradiction.
    + intros H. destruct (IH H) as (l1 & l2 & -> & Hx & Hl1).
      exists (y :: l1), l2. split; [reflexivity|]. split; [exact Hx|].
      intros z Hz. apply elem_of_cons in Hz as [-> | Hz]; auto.
  - intros (l1 & l2 & -> & Hx & Hl1).
    induction l1 as [|y l1 IH]; simpl.
    + rewrite Hx. reflexivity.
    + rewrite (Hl1 y) by (apply elem_of_cons; auto).
      apply IH. intros z Hz. apply Hl1. apply elem_of_cons. auto.
Qed.

Lemma find_nothing (f : Z -> bool) (l : list Z) :
  find f l = None <-> forall y, y ∈ l -> f y = false.
Proof.
  induction l as [|y l IH]; simpl.
  - split; [|reflexivity]. intros _ z Hz. apply elem_of_nil in Hz. contradiction.
  - destruct (f y) eqn:E.
    + split; [discriminate|]. intros H.
      rewrite (H y) in E by (apply elem_of_cons; auto). discriminate.
    + rewrite IH. split.
      * intros H z Hz. apply elem_of_cons in Hz as [-> | Hz]; auto.
      * intros H z Hz. apply H. apply elem_of_cons. auto.
Qed.

Lemma find_agree (f g : Z -> bool) (l : list Z) :
  (forall y, y ∈ l -> f y = g y) -> find f l = find g l.
Proof.
  induction l as [|y l IH]; simpl; intros H; [reflexivity|].
  rewrite <- (H y) by (apply elem_of_cons; auto).
  destruct (f y); [reflexivity|]. apply IH.
  intros z Hz. apply H. apply elem_of_cons. auto.
Qed.

Lemma find_elem (f : Z -> bool) (l : list Z) (x : Z) :
  find f l = Some x -> x ∈ l /\ f x = true.
Proof.
  intros H. apply find_first in H as (l1 & l2 & -> & Hx & _).
  split; [|exact Hx]. apply elem_of_app. right. apply elem_of_cons. auto.
Qed.

Lemma fits_true (m : gmap Z header_t) (sz x : Z) :
  fits m sz x = true <->
  exists h, m !! x = Some h /\ is_free h = true /\ sz <= size h.
Proof.
  unfold fits. destruct (m !! x) as [h|].
  - rewrite andb_true_iff, Z.leb_le. split.
    + intros [H1 H2]. eauto.
    + intros (h' & [= <-] & H1 & H2). auto.
  - split; [discriminate|]. intros (h & Hh & _). discriminate.
Qed.

(** ** The system calls *)

Lemma sbrk_ok (s : state) (incr : Z) :
  heap_base s <= brk s + incr <= heap_limit s ->
  sbrk s incr = (set_brk s (brk s + incr), brk s).
Proof.
  intros H. unfold sbrk.
  replace (heap_base s <=? brk s + incr) with true by (symmetry; apply Z.leb_le; lia).
  replace (brk s + incr <=? heap_limit s) with true by (symmetry; apply Z.leb_le; lia).
  reflexivity.
Qed.

Lemma sbrk_fail (s : state) (incr : Z) :
  ~ (heap_base s <= brk s + incr <= heap_limit s) ->
  sbrk s incr = (s, SBRK_FAILED).
Proof.
  intros H. unfold sbrk.
  destruct (heap_base s <=? brk s + incr) eqn:E1;
    destruct (brk s + incr <=? heap_limit s) eqn:E2; simpl; try reflexivity.
  apply Z.leb_le in E1, E2. lia.
Qed.

Lemma sbrk_zero (s : state) :
  heap_base s <= brk s <= heap_limit s -> sbrk s 0 = (s, brk s).
Proof.
  intros H. rewrite sbrk_ok by lia. rewrite Z.add_0_r.
  destruct s; reflexivity.
Qed.

Lemma to_intptr_small (x : Z) : x < INTPTR_BOUND -> to_intptr x = x.
Proof.
  intros H. unfold to_intptr.
  replace (x <? INTPTR_BOUND) with true by (symmetry; apply Z.ltb_lt; exact H).
  reflexivity.
Qed.

Lemma to_intptr_big (x : Z) : INTPTR_BOUND <= x -> to_intptr x = x - SIZE_MOD.
Proof.
  intros H. unfold to_intptr.
  replace (x <? INTPTR_BOUND) with false by (symmetry; apply Z.ltb_ge; exact H).
  reflexivity.
Qed.

Lemma wrap_small (x : Z) : is_size_t x -> wrap x = x.
Proof. intros H. apply Z.mod_small. exact H. Qed.

(** The increment [free] hands to [sbrk] is minus the footprint of the block,
    as long as the footprint fits the signed type. *)
Lemma release_increment (sz : Z) :
  0 <= sz -> sz + sizeof_header_t <= INTPTR_BOUND ->
  to_intptr (wrap (wrap (0 - sz) - sizeof_header_t)) = - (sz + sizeof_header_t).
Proof.
  intros H0 H1. unfold wrap, sizeof_header_t, INTPTR_BOUND, SIZE_MOD in *.
  rewrite Zminus_mod_idemp_l.
  replace ((0 - sz - 24) mod 2 ^ 64) with (2 ^ 64 - sz - 24).
  2:{ apply Z.mod_unique with (q := -1); lia. }
  unfold to_intptr, INTPTR_BOUND, SIZE_MOD.
  replace (2 ^ 64 - sz - 24 <? 2 ^ 63) with false by (symmetry; apply Z.ltb_ge; lia).
  lia.
Qed.

(** ** malloc, case by case *)

Lemma malloc_zero (s : state) : malloc s 0 = Ret (s, NULL).
Proof. reflexivity. Qed.

(** A free block fits: it is taken, and nothing but its flag changes. *)
Lemma malloc_reuse (s : state) (sz : Z) (l : list Z) (x : Z) :
  chain_ok s l -> sz <> 0 ->
  find (fits (hdrs s) sz) l = Some x ->
  exists h, hdrs s !! x = Some h /\ is_free h = true /\ sz <= size h /\
    malloc s sz =
      Ret (set_hdrs s (<[x := set_is_free h false]> (hdrs s)),
           x + sizeof_header_t).
Proof.
  intros Hok Hsz Hfind.
  destruct (find_elem _ _ _ Hfind) as (Hin & Hfit).
  apply fits_true in Hfit as (h & Hm & Hfree & Hle).
  exists h. repeat split; try assumption.
  unfold malloc. apply Z.eqb_neq in Hsz. rewrite Hsz.
  rewrite (get_free_block_spec s sz l Hok). unfold first_fit. rewrite Hfind.
  simpl.
  assert (Hx : x <> NULL).
  { destruct Hok as (Hc & _). eapply chain_at_nonnull; eassumption. }
  apply Z.eqb_neq in Hx. rewrite Hx. simpl. rewrite Hm. reflexivity.
Qed.

(** No block fits and the break cannot move: [NULL], nothing changes. *)
Lemma malloc_fail (s : state) (sz : Z) (l : list Z) :
  chain_ok s l -> sz <> 0 ->
  find (fits (hdrs s) sz) l = None ->
  ~ (heap_base s <= brk s + to_intptr (wrap (sizeof_header_t + sz))
       <= heap_limit s) ->
  malloc s sz = Ret (s, NULL).
Proof.
  intros Hok Hsz Hfind Hwin.
  unfold malloc. apply Z.eqb_neq in Hsz. rewrite Hsz.
  rewrite (get_free_block_spec s sz l Hok). unfold first_fit. rewrite Hfind.
  simpl. rewrite sbrk_fail by exact Hwin. reflexivity.
Qed.

(** No block fits, the chain is empty and the break moves. *)
Lemma malloc_grow_empty (s : state) (sz : Z) :
  chain_ok s [] -> sz <> 0 -> brk s <> SBRK_FAILED ->
  heap_base s <= brk s + to_intptr (wrap (sizeof_header_t + sz))
    <= heap_limit s ->
  malloc s sz =
    Ret (set_chain
           (set_brk s (brk s + to_intptr (wrap (sizeof_header_t + sz))))
           (brk s) (brk s)
           (<[brk s := Header sz false NULL]> (hdrs s)),
         brk s + sizeof_header_t).
Proof.
  intros Hok Hsz Hb Hwin.
  unfold malloc. apply Z.eqb_neq in Hsz. rewrite Hsz.
  rewrite (get_free_block_spec s sz [] Hok). unfold first_fit. simpl.
  rewrite sbrk_ok by exact Hwin.
  apply Z.eqb_neq in Hb. rewrite Hb.
  destruct Hok as (Hc & _ & Ht). simpl in Hc. unfold last_or_null in Ht.
  simpl in Ht. simpl. rewrite Hc, Ht. reflexivity.
Qed.

(** No block fits, the chain has a tail and the break moves. *)
Lemma malloc_grow_nonempty (s : state) (sz : Z) (l : list Z) (ht : header_t) :
  chain_ok s l -> l <> [] -> sz <> 0 -> brk s <> SBRK_FAILED ->
  brk s ∉ l ->
  find (fits (hdrs s) sz) l = None ->
  hdrs s !! tail s = Some ht ->
  heap_base s <= brk s + to_intptr (wrap (sizeof_header_t + sz))
    <= heap_limit s ->
  malloc s sz =
    Ret (set_chain
           (set_brk s (brk s + to_intptr (wrap (sizeof_header_t + sz))))
           (head s) (brk s)
           (<[tail s := set_next ht (brk s)]>
              (<[brk s := Header sz false NULL]> (hdrs s))),
         brk s + sizeof_header_t).
Proof.
  intros Hok Hne Hsz Hb Hfresh Hfind Hlk Hwin.
  unfold malloc. apply Z.eqb_neq in Hsz. rewrite Hsz.
  rewrite (get_free_block_spec s sz l Hok). unfold first_fit. rewrite Hfind.
  simpl. rewrite sbrk_ok by exact Hwin.
  apply Z.eqb_neq in Hb. rewrite Hb.
  destruct Hok as (Hc & Hnd & Ht).
  assert (Hhead : head s <> NULL).
  { intros E. apply (chain_at_head_null _ _ _ Hc) in E. contradiction. }
  assert (Htin : tail s ∈ l).
  { rewrite Ht. apply last_or_null_elem. exact Hne. }
  assert (Htail : tail s <> NULL).
  { eapply chain_at_nonnull; eassumption. }
  assert (Htb : brk s <> tail s).
  { intros E. rewrite E in Hfresh. contradiction. }
  simpl. apply Z.eqb_neq in Hhead, Htail. rewrite Hhead, Htail. simpl.
  rewrite lookup_insert_ne by exact Htb. rewrite Hlk. reflexivity.
Qed.

(** ** Linking and unlinking the last node *)

Lemma last_or_null_cons_cons (x y : Z) (l : list Z) :
  last_or_null (x :: y :: l) = last_or_null (y :: l).
Proof. reflexivity. Qed.

Lemma chain_at_append (m : gmap Z header_t) (a : Z) (l : list Z)
    (B : Z) (ht new : header_t) :
  chain_at m a l -> NoDup l -> l <> [] -> B ∉ l -> B <> NULL ->
  m !! last_or_null l = Some ht -> next new = NULL ->
  chain_at (<[last_or_null l := set_next ht B]> (<[B := new]> m)) a (l ++ [B]).
Proof.
  intros Hc Hnd Hne HB HB0 Hlk Hnew. revert a Hc Hnd HB Hlk.
  induction l as [|x l IH]; [contradiction|]. clear Hne.
  intros a Hc Hnd HB Hlk.
  destruct Hc as (-> & Hx & h & Hm & Hrest).
  apply NoDup_cons in Hnd as [Hxl Hnd].
  apply not_elem_of_cons in HB as [HBx HB].
  destruct l as [|y l].
  - simpl in Hrest. unfold last_or_null in *. simpl in *.
    rewrite Hm in Hlk. injection Hlk as <-.
    split; [reflexivity|]. split; [exact Hx|].
    exists (set_next h B). split; [apply lookup_insert_eq|]. simpl.
    split; [reflexivity|]. split; [exact HB0|].
    exists new. split.
    + rewrite lookup_insert_ne by congruence. apply lookup_insert_eq.
    + exact Hnew.
  - rewrite last_or_null_cons_cons in *.
    assert (Hlast : last_or_null (y :: l) ∈ y :: l)
      by (apply last_or_null_elem; discriminate).
    assert (Hxt : x <> last_or_null (y :: l)) by (intros E; rewrite <- E in Hlast; contradiction).
    change ((x :: y :: l) ++ [B]) with (x :: ((y :: l) ++ [B])).
    split; [reflexivity|]. split; [exact Hx|].
    exists h. split.
    + rewrite lookup_insert_ne by congruence.
      rewrite lookup_insert_ne by congruence. exact Hm.
    + apply IH; try assumption. discriminate.
Qed.

Lemma chain_at_first (m : gmap Z header_t) (a : Z) (l1 l2 : list Z) :
  chain_at m a (l1 ++ l2) -> l1 <> [] -> a ∈ l1.
Proof.
  destruct l1 as [|x l1]; [contradiction|]. intros (-> & _) _.
  apply elem_of_cons. auto.
Qed.

Lemma free_loop_spec (fuel : nat) (m : gmap Z header_t) (a : Z)
    (l : list Z) (p t : Z) (hp : header_t) :
  chain_at m a (l ++ [p; t]) -> NoDup (l ++ [p; t]) -> m !! p = Some hp ->
  (length (l ++ [p; t]) < fuel)%nat ->
  free_loop fuel m t a = Ret (<[p := set_next hp NULL]> m, p).
Proof.
  revert a fuel. induction l as [|x l IH]; intros a fuel Hc Hnd Hlk Hf.
  - simpl in Hc. destruct Hc as (-> & Hp & h & Hm & Hn & Ht & _).
    rewrite Hlk in Hm. injection Hm as <-. subst t.
    simpl in Hf. destruct fuel as [|[|f]]; try lia.
    simpl. apply Z.eqb_neq in Hp. rewrite Hp, Hlk.
    rewrite Z.eqb_refl. rewrite lookup_insert_eq. simpl. reflexivity.
  - change ((x :: l) ++ [p; t]) with (x :: (l ++ [p; t])) in *.
    destruct Hc as (-> & Hx & h & Hm & Hrest).
    apply NoDup_cons in Hnd as [Hxl Hnd].
    replace (l ++ [p; t]) with ((l ++ [p]) ++ [t]) in Hnd, Hrest
      by (rewrite <- app_assoc; reflexivity).
    assert (Hnt : next h <> t).
    { assert (Hin : next h ∈ l ++ [p]).
      { apply (chain_at_first m _ _ [t]); [exact Hrest|]. destruct l; discriminate. }
      apply NoDup_app in Hnd as (_ & Hdisj & _).
      intros E. apply (Hdisj _ Hin). rewrite E.
      apply list_elem_of_singleton. reflexivity. }
    replace ((l ++ [p]) ++ [t]) with (l ++ [p; t]) in Hnd, Hrest
      by (rewrite <- app_assoc; reflexivity).
    simpl in Hf. destruct fuel as [|f]; [lia|].
    simpl. apply Z.eqb_neq in Hx. rewrite Hx, Hm.
    apply Z.eqb_neq in Hnt. rewrite Hnt. rewrite Hm.
    apply IH; try assumption. lia.
Qed.

Lemma chain_at_drop_last (m : gmap Z header_t) (a : Z) (l : list Z)
    (p t : Z) (hp : header_t) :
  chain_at m a (l ++ [p; t]) -> NoDup (l ++ [p; t]) -> m !! p = Some hp ->
  chain_at (<[p := set_next hp NULL]> m) a (l ++ [p]).
Proof.
  revert a. induction l as [|x l IH]; intros a Hc Hnd Hlk.
  - simpl in *. destruct Hc as (-> & Hp & _).
    split; [reflexivity|]. split; [exact Hp|].
    exists (set_next hp NULL). split; [apply lookup_insert_eq | reflexivity].
  - change ((x :: l) ++ [p; t]) with (x :: (l ++ [p; t])) in *.
    change ((x :: l) ++ [p]) with (x :: (l ++ [p])).
    destruct Hc as (-> & Hx & h & Hm & Hrest).
    apply NoDup_cons in Hnd as [Hxl Hnd].
    assert (Hxp : p <> x).
    { intros ->. apply Hxl. apply elem_of_app. right. apply elem_of_cons. auto. }
    split; [reflexivity|]. split; [exact Hx|].
    exists h. split; [rewrite lookup_insert_ne by exact Hxp; exact Hm|].
    apply IH; assumption.
Qed.


(** ** free, case by case *)

Lemma free_null (s : state) : free s NULL = Ret s.
Proof. reflexivity. Qed.

(** The block does not end at the break: it is marked free and stays linked. *)
Lemma free_mark (s : state) (block : Z) (h : header_t) :
  block <> NULL -> heap_base s <= brk s <= heap_limit s ->
  hdrs s !! (block - sizeof_header_t) = Some h ->
  block + size h <> brk s ->
  free s block =
    Ret (set_hdrs s (<[block - sizeof_header_t := set_is_free h true]> (hdrs s))).
Proof.
  intros Hb Hwin Hlk Hnt. unfold free.
  apply Z.eqb_neq in Hb. rewrite Hb. rewrite sbrk_zero by exact Hwin.
  rewrite Hlk. apply Z.eqb_neq in Hnt. rewrite Hnt. reflexivity.
Qed.

(** The block ends at the break and is the only one of the chain. *)
Lemma free_release_single (s : state) (block : Z) (h : header_t) :
  block <> NULL -> heap_base s <= brk s <= heap_limit s ->
  hdrs s !! (block - sizeof_header_t) = Some h ->
  block + size h = brk s ->
  head s = tail s ->
  free s block =
    Ret (fst (sbrk (set_chain s NULL NULL (hdrs s))
                (to_intptr (wrap (wrap (0 - size h) - sizeof_header_t))))).
Proof.
  intros Hb Hwin Hlk Ht Hht. unfold free.
  apply Z.eqb_neq in Hb. rewrite Hb. rewrite sbrk_zero by exact Hwin.
  rewrite Hlk. apply Z.eqb_eq in Ht. rewrite Ht.
  apply Z.eqb_eq in Hht. rewrite Hht. simpl. rewrite Hlk. reflexivity.
Qed.

(** The block ends at the break and the chain has more nodes: the node in
    front of [tail] becomes the tail. *)
Lemma free_release_multi (s : state) (block : Z) (h : header_t)
    (l : list Z) (p : Z) (hp : header_t) :
  block <> NULL -> heap_base s <= brk s <= heap_limit s ->
  hdrs s !! (block - sizeof_header_t) = Some h ->
  block + size h = brk s ->
  chain_ok s (l ++ [p; tail s]) ->
  hdrs s !! p = Some hp ->
  free s block =
    Ret (fst (sbrk (set_chain s (head s) p (<[p := set_next hp NULL]> (hdrs s)))
                (to_intptr (wrap (wrap (0 - size h) - sizeof_header_t))))).
Proof.
  intros Hb Hwin Hlk Ht Hok Hp. unfold free.
  apply Z.eqb_neq in Hb. rewrite Hb. rewrite sbrk_zero by exact Hwin.
  rewrite Hlk. apply Z.eqb_eq in Ht. rewrite Ht.
  destruct Hok as (Hc & Hnd & _).
  assert (Hne : head s <> tail s).
  { assert (Hin : head s ∈ l ++ [p]).
    { apply (chain_at_first (hdrs s) _ _ [tail s]).
      - rewrite <- app_assoc. exact Hc.
      - destruct l; discriminate. }
    replace (l ++ [p; tail s]) with ((l ++ [p]) ++ [tail s]) in Hnd
      by (rewrite <- app_assoc; reflexivity).
    apply NoDup_app in Hnd as (_ & Hdisj & _).
    intros E. apply (Hdisj _ Hin). rewrite E.
    apply list_elem_of_singleton. reflexivity. }
  apply Z.eqb_neq in Hne. rewrite Hne.
  rewrite (free_loop_spec _ _ _ l p (tail s) hp Hc Hnd Hp)
    by (eapply chain_fuel_enough; eassumption).
  simpl.
  destruct (decide (block - sizeof_header_t = p)) as [E | E].
  - rewrite E. rewrite lookup_insert_eq. simpl.
    rewrite E in Hlk. rewrite Hp in Hlk. injection Hlk as <-. reflexivity.
  - rewrite lookup_insert_ne by congruence. rewrite Hlk. reflexivity.
Qed.


(** ** Well-formed states are preserved *)

Lemma init_wf (base limit : Z) :
  0 < base -> base <= limit -> limit < INTPTR_BOUND -> wf (init base limit) [].
Proof.
  intros H1 H2 H3. unfold wf, init. simpl.
  repeat split; try assumption; reflexivity.
Qed.

Lemma wf_window (s : state) (l : list Z) :
  wf s l -> 0 < heap_base s <= brk s /\ brk s <= heap_limit s < INTPTR_BOUND.
Proof.
  intros (_ & _ & Hl & Hb & Hlim & Hmax). apply layout_le in Hl. lia.
Qed.

Lemma wf_elem (s : state) (l : list Z) (x : Z) :
  wf s l -> x ∈ l ->
  exists h, hdrs s !! x = Some h /\ 0 < size h /\
            heap_base s <= x /\ x + sizeof_header_t + size h <= brk s.
Proof.
  intros (_ & _ & Hl & _) Hx.
  destruct (layout_elem _ _ _ _ x Hl Hx) as (Hlo & h & Hm & Hs & Hhi).
  exists h. auto.
Qed.

Lemma wf_brk_fresh (s : state) (l : list Z) : wf s l -> brk s ∉ l.
Proof.
  intros Hwf Hin. destruct (wf_elem s l _ Hwf Hin) as (h & _ & Hs & _ & Hhi).
  pose proof sizeof_header_t_pos. lia.
Qed.

Lemma wf_brk_not_failed (s : state) (l : list Z) :
  wf s l -> brk s <> SBRK_FAILED.
Proof.
  intros Hwf. apply wf_window in Hwf.
  unfold SBRK_FAILED, SIZE_MOD, INTPTR_BOUND in *. lia.
Qed.

(** Flipping the flag of one header moves neither the chain nor the layout. *)
Lemma wf_set_is_free (s : state) (l : list Z) (x : Z) (h : header_t) (b : bool) :
  wf s l -> hdrs s !! x = Some h ->
  wf (set_hdrs s (<[x := set_is_free h b]> (hdrs s))) l.
Proof.
  intros (Hc & Ht & Hl & Hrest) Hm. unfold wf. simpl.
  assert (Hag : forall y hy, hdrs s !! y = Some hy ->
            exists h', <[x := set_is_free h b]> (hdrs s) !! y = Some h' /\
                       next h' = next hy /\ size h' = size hy).
  { intros y hy Hy. destruct (decide (x = y)) as [-> | Hne].
    - rewrite lookup_insert_eq. rewrite Hm in Hy. injection Hy as <-.
      eexists. split; [reflexivity|]. split; reflexivity.
    - rewrite lookup_insert_ne by exact Hne. eauto. }
  split.
  { eapply chain_at_agree; [|exact Hc]. intros y hy _ Hy.
    destruct (Hag y hy Hy) as (h' & ? & ? & ?). eauto. }
  split; [exact Ht|]. split; [|exact Hrest].
  eapply layout_agree; [|exact Hl]. intros y hy _ Hy.
  destruct (Hag y hy Hy) as (h' & ? & ? & ?). eauto.
Qed.

(** The heap grows by one block: the new header is linked behind the old
    tail, and no other header changes but for that link. *)
Lemma malloc_grow (s : state) (sz : Z) (l : list Z) :
  wf s l -> sz <> 0 ->
  find (fits (hdrs s) sz) l = None ->
  heap_base s <= brk s + to_intptr (wrap (sizeof_header_t + sz))
    <= heap_limit s ->
  exists s',
    malloc s sz = Ret (s', brk s + sizeof_header_t) /\
    chain_ok s' (l ++ [brk s]) /\
    hdrs s' !! brk s = Some (Header sz false NULL) /\
    (forall x h, x ∈ l -> hdrs s !! x = Some h ->
       hdrs s' !! x =
         Some (set_next h (if decide (x = tail s) then brk s else next h))) /\
    head s' = (if decide (l = []) then brk s else head s) /\
    brk s' = brk s + to_intptr (wrap (sizeof_header_t + sz)) /\
    bytes s' = bytes s /\
    heap_base s' = heap_base s /\ heap_limit s' = heap_limit s.
Proof.
  intros Hwf Hsz Hfind Hwin.
  pose proof (wf_chain_ok s l Hwf) as Hok.
  pose proof (wf_brk_fresh s l Hwf) as Hfresh.
  pose proof (wf_brk_not_failed s l Hwf) as Hnf.
  assert (HB0 : brk s <> NULL) by (apply wf_window in Hwf; unfold NULL; lia).
  destruct (decide (l = [])) as [-> | Hne].
  - eexists. split; [apply malloc_grow_empty; assumption|]. simpl.
    split.
    { split; [|split].
      - simpl. split; [reflexivity|]. split; [exact HB0|].
        eexists. split; [apply lookup_insert_eq | reflexivity].
      - apply NoDup_singleton.
      - reflexivity. }
    split; [apply lookup_insert_eq|].
    split.
    { intros x h Hx. apply elem_of_nil in Hx. contradiction. }
    repeat split; reflexivity.
  - destruct Hok as (Hc & Hnd & Ht).
    assert (Htin : tail s ∈ l) by (rewrite Ht; apply last_or_null_elem; exact Hne).
    destruct (chain_at_lookup _ _ _ Hc _ Htin) as [ht Hlk].
    eexists. split.
    { eapply malloc_grow_nonempty; try eassumption. split; [|split]; assumption. }
    simpl. split.
    { split; [|split].
      - simpl. rewrite Ht in *. apply chain_at_append; try assumption. reflexivity.
      - apply NoDup_app. split; [exact Hnd|]. split; [|apply NoDup_singleton].
        intros x Hx Hx'. apply list_elem_of_singleton in Hx'. subst x. contradiction.
      - simpl. rewrite last_or_null_snoc. reflexivity. }
    assert (Hbt : brk s <> tail s) by (intros E; rewrite E in Hfresh; contradiction).
    split.
    { rewrite lookup_insert_ne by congruence. apply lookup_insert_eq. }
    split.
    { intros x h Hx Hm. destruct (decide (x = tail s)) as [-> | Hxt].
      - rewrite lookup_insert_eq. rewrite Hlk in Hm. injection Hm as <-. reflexivity.
      - rewrite lookup_insert_ne by congruence.
        rewrite lookup_insert_ne by (intros E; rewrite E in Hfresh; contradiction).
        rewrite set_next_same. exact Hm. }
    repeat split; reflexivity.
Qed.

(** [malloc] of a size whose footprint fits [intptr_t] keeps the state
    well-formed; the chain is the old one, or the old one and a new block at
    the old break. *)
Lemma malloc_wf (s s' : state) (l : list Z) (sz p : Z) :
  wf s l -> 0 <= sz -> sz + sizeof_header_t < INTPTR_BOUND ->
  malloc s sz = Ret (s', p) ->
  wf s' l \/ (p = brk s + sizeof_header_t /\ wf s' (l ++ [brk s])).
Proof.
  intros Hwf H0 Hmax Hm.
  pose proof (wf_chain_ok s l Hwf) as Hok.
  destruct (decide (sz = 0)) as [-> | Hsz].
  { rewrite malloc_zero in Hm. injection Hm as <- <-. left. exact Hwf. }
  destruct (find (fits (hdrs s) sz) l) as [x|] eqn:Hfind.
  - destruct (malloc_reuse s sz l x Hok Hsz Hfind) as (h & Hlk & _ & _ & E).
    rewrite E in Hm. injection Hm as <- <-. left.
    apply wf_set_is_free; assumption.
  - destruct (decide (heap_base s <= brk s + to_intptr (wrap (sizeof_header_t + sz))
                        <= heap_limit s)) as [Hwin | Hwin].
    + destruct (malloc_grow s sz l Hwf Hsz Hfind Hwin)
        as (s1 & E & Hok1 & HB & Hold & Hhd & Hbrk & Hby & Hbase & Hlim).
      rewrite E in Hm. injection Hm as <- <-. right. split; [reflexivity|].
      assert (Hincr : to_intptr (wrap (sizeof_header_t + sz)) = sizeof_header_t + sz).
      { rewrite wrap_small.
        - apply to_intptr_small. lia.
        - unfold is_size_t, SIZE_MOD, INTPTR_BOUND, sizeof_header_t in *. lia. }
      destruct Hok1 as (Hc1 & Hnd1 & Ht1).
      destruct Hwf as (Hc & Ht & Hl & Hb0 & Hbl & Hlm).
      unfold wf. rewrite Hbrk, Hbase, Hlim, Hincr.
      split; [exact Hc1|]. split; [exact Ht1|].
      split; [|repeat split; try assumption; lia].
      apply layout_snoc with (ht := Header sz false NULL); simpl; try lia; [|exact HB].
      eapply layout_agree; [|exact Hl].
      intros x h Hx Hlk. rewrite (Hold x h Hx Hlk). eexists. split; reflexivity.
    + rewrite (malloc_fail s sz l Hok Hsz Hfind Hwin) in Hm.
      injection Hm as <- <-. left. exact Hwf.
Qed.

(** From a well-formed state [malloc] always returns. *)
Lemma malloc_total (s : state) (l : list Z) (sz : Z) :
  wf s l -> exists s' p, malloc s sz = Ret (s', p).
Proof.
  intros Hwf. pose proof (wf_chain_ok s l Hwf) as Hok.
  destruct (decide (sz = 0)) as [-> | Hsz]; [eexists _, _; apply malloc_zero|].
  destruct (find (fits (hdrs s) sz) l) as [x|] eqn:Hfind.
  - destruct (malloc_reuse s sz l x Hok Hsz Hfind) as (h & _ & _ & _ & E). eauto.
  - destruct (decide (heap_base s <= brk s + to_intptr (wrap (sizeof_header_t + sz))
                        <= heap_limit s)) as [Hwin | Hwin].
    + destruct (malloc_grow s sz l Hwf Hsz Hfind Hwin) as (s1 & E & _). eauto.
    + eexists _, _. eapply malloc_fail; eassumption.
Qed.

(** In a well-formed state the block that ends at the break is the tail. *)
Lemma wf_trailing_is_last (s : state) (l : list Z) (x : Z) (h : header_t) :
  wf s l -> x ∈ l -> hdrs s !! x = Some h ->
  x + sizeof_header_t + size h = brk s ->
  exists l0, l = l0 ++ [x] /\ tail s = x.
Proof.
  intros Hwf Hx Hm Hend.
  destruct Hwf as (Hc & Ht & Hl & _).
  destruct l as [|t l0 _] using rev_ind.
  { apply elem_of_nil in Hx. contradiction. }
  rewrite last_or_null_snoc in Ht.
  apply elem_of_app in Hx as [Hx | Hx].
  - exfalso.
    destruct (layout_snoc_before _ _ _ _ _ _ Hl Hx) as (h' & Hm' & Hle).
    rewrite Hm in Hm'. injection Hm' as <-.
    destruct (layout_elem _ _ _ _ t Hl) as (_ & ht & _ & Hst & Hhi).
    { apply elem_of_app. right. apply list_elem_of_singleton. reflexivity. }
    pose proof sizeof_header_t_pos. lia.
  - apply list_elem_of_singleton in Hx. subst x. exists l0. auto.
Qed.

(** [free] of a block of the chain that does not end at the break. *)
Lemma free_wf_mark (s : state) (l : list Z) (block : Z) (h : header_t) :
  wf s l -> block - sizeof_header_t ∈ l ->
  hdrs s !! (block - sizeof_header_t) = Some h ->
  block + size h <> brk s ->
  free s block =
    Ret (set_hdrs s (<[block - sizeof_header_t := set_is_free h true]> (hdrs s)))
  /\ wf (set_hdrs s (<[block - sizeof_header_t := set_is_free h true]> (hdrs s))) l.
Proof.
  intros Hwf Hin Hm Hnt. split; [|apply wf_set_is_free; assumption].
  apply free_mark; try assumption.
  - destruct (wf_elem s l _ Hwf Hin) as (_ & _ & _ & Hlo & _).
    apply wf_window in Hwf. pose proof sizeof_header_t_pos. unfold NULL. lia.
  - apply wf_window in Hwf. lia.
Qed.

(** [free] of the block of the chain that ends at the break: the block
    leaves the chain and the break comes back to its header. *)
Lemma free_wf_release (s : state) (l : list Z) (block : Z) (h : header_t) :
  wf s l -> block - sizeof_header_t ∈ l ->
  hdrs s !! (block - sizeof_header_t) = Some h ->
  block + size h = brk s ->
  exists l0 s',
    l = l0 ++ [block - sizeof_header_t] /\
    free s block = Ret s' /\
    wf s' l0 /\
    brk s' = block - sizeof_header_t /\
    head s' = (if decide (l0 = []) then NULL else head s) /\
    (forall x hx, x ∈ l0 -> hdrs s !! x = Some hx ->
       hdrs s' !! x =
         Some (set_next hx (if decide (x = last_or_null l0) then NULL
                            else next hx))) /\
    (forall x, x ∉ l0 -> hdrs s' !! x = hdrs s !! x) /\
    bytes s' = bytes s /\
    heap_base s' = heap_base s /\ heap_limit s' = heap_limit s.
Proof.
  intros Hwf Hin Hm Hend. pose proof sizeof_header_t_pos as Hhdr.
  destruct (wf_trailing_is_last s l _ h Hwf Hin Hm) as (l0 & -> & Htail); [lia|].
  pose proof (wf_chain_ok _ _ Hwf) as Hok.
  pose proof (wf_window _ _ Hwf) as Hwin.
  destruct (wf_elem _ _ _ Hwf Hin) as (h' & Hm' & Hsz & Hlo & Hhi).
  rewrite Hm in Hm'. injection Hm' as <-.
  assert (Hb : block <> NULL) by (unfold NULL; pose proof sizeof_header_t_pos; lia).
  assert (Hincr : to_intptr (wrap (wrap (0 - size h) - sizeof_header_t))
                  = - (size h + sizeof_header_t)).
  { apply release_increment; [lia|].
    pose proof sizeof_header_t_pos. unfold INTPTR_BOUND in *. lia. }
  destruct Hwf as (Hc & Ht & Hl & Hb0 & Hbl & Hlm).
  exists l0.
  destruct l0 as [|p l1 _] using rev_ind.
  - eexists. split; [reflexivity|]. split.
    { apply (free_release_single s block h); try assumption; try lia.
      simpl in Hc. destruct Hc as (E & _). congruence. }
    rewrite Hincr. rewrite sbrk_ok by (simpl; lia). simpl.
    split.
    { unfold wf. simpl. repeat split; try assumption; try reflexivity; lia. }
    split; [lia|]. split; [reflexivity|].
    split. { intros x hx Hx. apply elem_of_nil in Hx. contradiction. }
    repeat split; reflexivity.
  - rewrite <- app_assoc in *. simpl in *.
    assert (Hpin : p ∈ l1 ++ [p; block - sizeof_header_t]).
    { apply elem_of_app. right. apply elem_of_cons. auto. }
    destruct (chain_at_lookup _ _ _ Hc _ Hpin) as [hp Hp].
    pose proof Hok as (_ & Hnd & _).
    eexists. split; [reflexivity|]. split.
    { apply (free_release_multi s block h l1 p hp); try assumption; try lia.
      rewrite Htail. exact Hok. }
    rewrite Hincr. rewrite sbrk_ok by (simpl; lia). simpl.
    assert (Hag : forall y hy, hdrs s !! y = Some hy ->
              exists h', <[p := set_next hp NULL]> (hdrs s) !! y = Some h' /\
                         size h' = size hy).
    { intros y hy Hy. destruct (decide (p = y)) as [-> | Hne].
      - rewrite lookup_insert_eq. rewrite Hp in Hy. injection Hy as <-.
        eexists. split; reflexivity.
      - rewrite lookup_insert_ne by exact Hne. eauto. }
    split.
    { unfold wf. simpl. split.
      { eapply chain_at_drop_last; eassumption. }
      split; [rewrite last_or_null_snoc; reflexivity|].
      split; [|repeat split; try assumption; lia].
      replace (brk s + - (size h + sizeof_header_t)) with (block - sizeof_header_t) by lia.
      eapply layout_agree; [intros y hy _ Hy; exact (Hag y hy Hy)|].
      apply layout_snoc_inv with (hi := brk s).
      rewrite <- app_assoc. exact Hl. }
    split; [lia|].
    split. { destruct (decide (l1 ++ [p] = [])) as [E|E]; [destruct l1; discriminate | reflexivity]. }
    split.
    { intros x hx Hx Hlk. rewrite last_or_null_snoc.
      destruct (decide (x = p)) as [-> | Hxp].
      - rewrite lookup_insert_eq. rewrite Hp in Hlk. injection Hlk as <-. reflexivity.
      - rewrite lookup_insert_ne by congruence. rewrite set_next_same. exact Hlk. }
    split.
    { intros x Hx. apply lookup_insert_ne. intros ->. apply Hx.
      apply elem_of_app. right. apply list_elem_of_singleton. reflexivity. }
    repeat split; reflexivity.
Qed.

(** [free] of a block of the chain keeps the state well-formed. *)
Lemma free_wf (s : state) (l : list Z) (block : Z) :
  wf s l -> block - sizeof_header_t ∈ l ->
  exists s' l', free s block = Ret s' /\ wf s' l'.
Proof.
  intros Hwf Hin.
  destruct (wf_elem _ _ _ Hwf Hin) as (h & Hm & _).
  destruct (decide (block + size h = brk s)) as [E | E].
  - destruct (free_wf_release s l block h Hwf Hin Hm E) as (l0 & s' & _ & Hf & Hwf' & _).
    eauto.
  - destruct (free_wf_mark s l block h Hwf Hin Hm E) as (Hf & Hwf'). eauto.
Qed.

(** ** Frame facts *)

Lemma wf_set_bytes (s : state) (l : list Z) (b : Z -> byte) :
  wf s l -> wf (set_bytes s b) l.
Proof. intros H. exact H. Qed.


(** [free] never writes a payload byte. *)
Lemma free_bytes (s s' : state) (block : Z) :
  free s block = Ret s' -> bytes s' = bytes s.
Proof.
  unfold free. destruct (block =? NULL); [intros [= <-]; reflexivity|].
  assert (Hs0 : bytes (sbrk s 0).1 = bytes s).
  { unfold sbrk. destruct (_ && _); reflexivity. }
  destruct (sbrk s 0) as [s0 pb]. simpl in Hs0.
  destruct (hdrs s0 !! (block - sizeof_header_t)) as [h|]; [|discriminate].
  destruct (block + size h =? pb).
  - destruct (head s0 =? tail s0).
    + simpl. destruct (hdrs s0 !! (block - sizeof_header_t)); [|discriminate].
      intros [= <-]. unfold sbrk. simpl. destruct (_ && _); exact Hs0.
    + destruct (free_loop _ _ _ _) as [[m tl]| |]; simpl; try discriminate.
      destruct (m !! (block - sizeof_header_t)); [|discriminate].
      intros [= <-]. unfold sbrk. simpl. destruct (_ && _); exact Hs0.
  - intros [= <-]. exact Hs0.
Qed.

(** A [NULL] from [malloc] means that nothing was done. *)
Lemma malloc_null_unchanged (s s' : state) (l : list Z) (sz : Z) :
  wf s l -> malloc s sz = Ret (s', NULL) -> s' = s.
Proof.
  intros Hwf Hm. pose proof sizeof_header_t_pos as Hhdr.
  pose proof (wf_chain_ok s l Hwf) as Hok.
  destruct (decide (sz = 0)) as [-> | Hsz].
  { rewrite malloc_zero in Hm. congruence. }
  destruct (find (fits (hdrs s) sz) l) as [x|] eqn:Hfind.
  - exfalso.
    destruct (malloc_reuse s sz l x Hok Hsz Hfind) as (h & _ & _ & _ & E).
    rewrite E in Hm. injection Hm as _ Hx.
    destruct (find_elem _ _ _ Hfind) as (Hin & _).
    destruct (wf_elem s l x Hwf Hin) as (_ & _ & _ & Hlo & _).
    apply wf_window in Hwf. unfold NULL in Hx. lia.
  - destruct (decide (heap_base s <= brk s + to_intptr (wrap (sizeof_header_t + sz))
                        <= heap_limit s)) as [Hwin | Hwin].
    + exfalso.
      destruct (malloc_grow s sz l Hwf Hsz Hfind Hwin) as (s1 & E & _).
      rewrite E in Hm. injection Hm as _ Hx.
      apply wf_window in Hwf. unfold NULL in Hx. lia.
    + rewrite (malloc_fail s sz l Hok Hsz Hfind Hwin) in Hm. congruence.
Qed.

(** ** Sample states are well-formed *)

Lemma one_block_wf : wf one_block [4096].
Proof.
  unfold wf, one_block. simpl.
  split. { split; [reflexivity|]. split; [discriminate|]. eexists. split; reflexivity. }
  split; [reflexivity|].
  split. { split; [lia|]. eexists. split; [reflexivity|]. simpl. split; [lia|]. unfold sizeof_header_t. lia. }
  unfold INTPTR_BOUND. lia.
Defined.

Lemma one_block_full_wf : wf one_block_full [4096].
Proof.
  unfold wf, one_block_full. simpl.
  split. { split; [reflexivity|]. split; [discriminate|]. eexists. split; reflexivity. }
  split; [reflexivity|].
  split. { split; [lia|]. eexists. split; [reflexivity|]. simpl. split; [lia|]. unfold sizeof_header_t. lia. }
  unfold INTPTR_BOUND. lia.
Defined.

(** ** Blocks in use *)

(** A block in use is never what a later [malloc] hands out. *)
Lemma malloc_keeps_live (s s' : state) (l : list Z) (x sz q : Z) (h : header_t) :
  wf s l -> x ∈ l -> hdrs s !! x = Some h -> is_free h = false ->
  malloc s sz = Ret (s', q) ->
  q <> x + sizeof_header_t /\
  exists h', hdrs s' !! x = Some h' /\ is_free h' = false /\ size h' = size h.
Proof.
  intros Hwf Hin Hlk Hlive Hm. pose proof sizeof_header_t_pos as Hhdr.
  pose proof (wf_chain_ok s l Hwf) as Hok.
  destruct (wf_elem s l x Hwf Hin) as (h0 & Hlk0 & Hs0 & Hlo & Hhi).
  pose proof (wf_window s l Hwf) as Hwin0.
  destruct (decide (sz = 0)) as [-> | Hsz].
  { rewrite malloc_zero in Hm. injection Hm as <- <-.
    split; [unfold NULL; lia | eauto]. }
  destruct (find (fits (hdrs s) sz) l) as [y|] eqn:Hfind.
  - destruct (malloc_reuse s sz l y Hok Hsz Hfind) as (hy & Hy & Hfree & _ & E).
    rewrite E in Hm. injection Hm as <- <-.
    assert (Hne : y <> x).
    { intros ->. rewrite Hlk in Hy. injection Hy as <-. congruence. }
    split; [lia|]. simpl. rewrite lookup_insert_ne by exact Hne. eauto.
  - destruct (decide (heap_base s <= brk s + to_intptr (wrap (sizeof_header_t + sz))
                        <= heap_limit s)) as [Hwin | Hwin].
    + destruct (malloc_grow s sz l Hwf Hsz Hfind Hwin)
        as (s1 & E & _ & _ & Hold & _).
      rewrite E in Hm. injection Hm as <- <-.
      rewrite Hlk in Hlk0. injection Hlk0 as <-.
      split; [lia|]. rewrite (Hold x h Hin Hlk). eexists. split; [reflexivity|].
      split; [exact Hlive | reflexivity].
    + rewrite (malloc_fail s sz l Hok Hsz Hfind Hwin) in Hm.
      injection Hm as <- <-. split; [unfold NULL; lia | eauto].
Qed.


(** ** calloc and realloc *)

(** The multiplication check of [calloc] is exact. *)
Lemma calloc_overflow_check (num nsize : Z) :
  is_size_t num -> is_size_t nsize -> num <> 0 ->
  (nsize <> wrap (num * nsize) / num <-> SIZE_MOD <= num * nsize).
Proof.
  unfold is_size_t, wrap. intros Hn Hs Hn0.
  assert (HM : 0 < SIZE_MOD) by reflexivity.
  split.
  - intros Hne. destruct (Z_lt_le_dec (num * nsize) SIZE_MOD) as [Hlt | Hge]; [|exact Hge].
    exfalso. apply Hne. rewrite Z.mod_small by nia.
    rewrite Z.mul_comm. symmetry. apply Z.div_mul. exact Hn0.
  - intros Hge Heq.
    assert (Hlt : (num * nsize) mod SIZE_MOD / num < nsize).
    { apply Z.div_lt_upper_bound; [lia|].
      pose proof (Z.mod_pos_bound (num * nsize) SIZE_MOD HM). lia. }
    lia.
Qed.

Lemma chain_at_pred (m : gmap Z header_t) (a : Z) (l : list Z) (p t : Z) :
  chain_at m a (l ++ [p; t]) -> exists hp, m !! p = Some hp /\ next hp = t.
Proof.
  revert a. induction l as [|x l IH]; intros a Hc.
  - simpl in Hc. destruct Hc as (_ & _ & hp & Hp & Hn & _). eauto.
  - change ((x :: l) ++ [p; t]) with (x :: (l ++ [p; t])) in Hc.
    destruct Hc as (_ & _ & h & _ & Hrest). eauto.
Qed.


(** After [free] of a block of a well-formed chain the block is out of the
    chain or marked free. *)
Lemma free_wf_frees (s s' : state) (l : list Z) (block : Z) :
  wf s l -> block - sizeof_header_t ∈ l -> free s block = Ret s' ->
  exists l', wf s' l' /\
    (block - sizeof_header_t ∉ l' \/
     exists h', hdrs s' !! (block - sizeof_header_t) = Some h' /\ is_free h' = true).
Proof.
  intros Hwf Hin Hf.
  destruct (wf_elem _ _ _ Hwf Hin) as (h & Hm & _).
  destruct (decide (block + size h = brk s)) as [E | E].
  - destruct (free_wf_release s l block h Hwf Hin Hm E) as (l0 & s1 & Hl & Hf1 & Hwf1 & _).
    rewrite Hf1 in Hf. injection Hf as <-. exists l0. split; [exact Hwf1|]. left.
    pose proof (wf_chain_ok _ _ Hwf) as (_ & Hnd & _). rewrite Hl in Hnd.
    apply NoDup_app in Hnd as (_ & Hdisj & _). intros Hin0.
    apply (Hdisj _ Hin0). apply list_elem_of_singleton. reflexivity.
  - destruct (free_wf_mark s l block h Hwf Hin Hm E) as (Hf1 & Hwf1).
    rewrite Hf1 in Hf. injection Hf as <-. exists l. split; [exact Hwf1|]. right.
    simpl. rewrite lookup_insert_eq. eexists. split; reflexivity.
Qed.



(** ** Allocate, free, allocate again *)






Lemma chain_ok_set_is_free (s : state) (l : list Z) (x : Z) (h : header_t) (b : bool) :
  chain_ok s l -> hdrs s !! x = Some h ->
  chain_ok (set_hdrs s (<[x := set_is_free h b]> (hdrs s))) l.
Proof.
  intros (Hc & Hnd & Ht) Hm. split; [|split; assumption]. simpl.
  eapply chain_at_agree; [|exact Hc]. intros y hy _ Hy.
  destruct (decide (x = y)) as [-> | Hne].
  - rewrite lookup_insert_eq. rewrite Hm in Hy. injection Hy as <-.
    eexists. split; reflexivity.
  - rewrite lookup_insert_ne by exact Hne. eauto.
Qed.


Lemma grow_increment (n : Z) :
  0 < n -> n + sizeof_header_t < INTPTR_BOUND ->
  to_intptr (wrap (sizeof_header_t + n)) = sizeof_header_t + n.
Proof.
  intros H0 Hmax. pose proof sizeof_header_t_pos.
  rewrite wrap_small.
  - apply to_intptr_small. lia.
  - unfold is_size_t, SIZE_MOD, INTPTR_BOUND in *. lia.
Qed.


Lemma malloc_grow_wf (s s1 : state) (l : list Z) (n : Z) :
  wf s l -> 0 < n -> n + sizeof_header_t < INTPTR_BOUND ->
  malloc s n = Ret (s1, brk s + sizeof_header_t) ->
  chain_ok s1 (l ++ [brk s]) ->
  wf s1 (l ++ [brk s]).
Proof.
  intros Hwf Hn Hmax Hm Hok1.
  destruct (malloc_wf s s1 l n _ Hwf ltac:(lia) Hmax Hm) as [Hw | (_ & Hw)]; [|exact Hw].
  exfalso. destruct Hw as (Hc1 & _). destruct Hok1 as (Hc2 & _).
  pose proof (chain_at_unique _ _ _ _ Hc1 Hc2) as Heq.
  apply (f_equal (@length Z)) in Heq. rewrite length_app in Heq. simpl in Heq. lia.
Qed.


(** ** Chain integrity in the words of the specification *)

(** An intact chain: [head] is [NULL] exactly when the chain is empty,
    exactly when [tail] is [NULL]; no node is met twice; the walk from [head]
    ends at [tail], whose next link is [NULL]. *)
Lemma chain_ok_integrity (s : state) (l : list Z) :
  chain_ok s l ->
  (head s = NULL <-> l = []) /\
  (tail s = NULL <-> l = []) /\
  NoDup l /\
  (l <> [] ->
     last l = Some (tail s) /\
     exists ht, hdrs s !! tail s = Some ht /\ next ht = NULL).
Proof.
  intros (Hc & Hnd & Ht).
  split; [apply (chain_at_head_null _ _ _ Hc)|].
  split.
  { split.
    - intros E. destruct l as [|x l0 _] using rev_ind; [reflexivity|].
      rewrite last_or_null_snoc in Ht.
      destruct (chain_at_snoc_inv _ _ _ _ Hc) as (_ & _ & _ & Hx). congruence.
    - intros ->. exact Ht. }
  split; [exact Hnd|].
  intros Hne. destruct l as [|x l0 _] using rev_ind; [contradiction|].
  rewrite last_or_null_snoc in Ht. rewrite Ht.
  split; [apply last_snoc|].
  destruct (chain_at_snoc_inv _ _ _ _ Hc) as (ht & Hm & Hn & _). eauto.
Qed.

(** ** The four entry points keep well-formed states well-formed

    as long as the footprint of every request fits [intptr_t] and the
    pointers handed in are capabilities of the chain. *)

Lemma calloc_wf (s s' : state) (l : list Z) (num nsize p : Z) :
  wf s l -> is_size_t num -> is_size_t nsize ->
  (num * nsize < SIZE_MOD -> num * nsize + sizeof_header_t < INTPTR_BOUND) ->
  calloc s num nsize = Ret (s', p) ->
  exists l', wf s' l'.
Proof.
  intros Hwf Hn Hs Hmax Hc. unfold calloc in Hc.
  destruct ((num =? 0) || (nsize =? 0)) eqn:E0.
  { injection Hc as <- <-. eauto. }
  apply orb_false_iff in E0 as [En Es]. apply Z.eqb_neq in En, Es.
  destruct (nsize =? wrap (num * nsize) / num) eqn:Echk; simpl in Hc.
  2:{ injection Hc as <- <-. eauto. }
  assert (Hfit : num * nsize < SIZE_MOD).
  { destruct (Z_lt_le_dec (num * nsize) SIZE_MOD) as [H | H]; [exact H|].
    apply (calloc_overflow_check num nsize Hn Hs En) in H.
    apply Z.eqb_eq in Echk. contradiction. }
  assert (Hw : wrap (num * nsize) = num * nsize).
  { apply wrap_small. unfold is_size_t in *. nia. }
  rewrite Hw in Hc.
  destruct (malloc s (num * nsize)) as [[s1 q]| |] eqn:Hm; simpl in Hc; try discriminate.
  assert (Hwf1 : exists l1, wf s1 l1).
  { destruct (malloc_wf s s1 l (num * nsize) q Hwf) as [Hw1 | (_ & Hw1)]; eauto.
    unfold is_size_t in *. nia. }
  destruct Hwf1 as (l1 & Hwf1).
  destruct (q =? NULL); injection Hc as <- <-; exists l1; exact Hwf1.
Qed.

Lemma realloc_wf (s s' : state) (l : list Z) (block sz p : Z) :
  wf s l -> block = NULL \/ block - sizeof_header_t ∈ l ->
  0 <= sz -> sz + sizeof_header_t < INTPTR_BOUND ->
  realloc s block sz = Ret (s', p) ->
  exists l', wf s' l'.
Proof.
  intros Hwf Hb H0 Hmax Hr. unfold realloc in Hr.
  assert (Hmw : forall s1 q, malloc s sz = Ret (s1, q) ->
            exists l1, wf s1 l1 /\ (forall x, x ∈ l -> x ∈ l1)).
  { intros s1 q Hm.
    destruct (malloc_wf s s1 l sz q Hwf H0 Hmax Hm) as [Hw1 | (_ & Hw1)].
    - eauto.
    - exists (l ++ [brk s]). split; [exact Hw1|]. intros x Hx.
      apply elem_of_app. auto. }
  destruct ((block =? NULL) || (sz =? 0)) eqn:E0.
  { destruct (Hmw _ _ Hr) as (l1 & Hw1 & _). eauto. }
  apply orb_false_iff in E0 as [Eb _]. apply Z.eqb_neq in Eb.
  destruct Hb as [Hb | Hin]; [contradiction|].
  destruct (hdrs s !! (block - sizeof_header_t)) as [h|]; [|discriminate].
  destruct (sz <=? size h).
  { injection Hr as <- <-. eauto. }
  destruct (malloc s sz) as [[s1 q]| |] eqn:Hm; simpl in Hr; try discriminate.
  destruct (Hmw _ _ eq_refl) as (l1 & Hw1 & Hsub).
  destruct (q =? NULL); simpl in Hr.
  { injection Hr as <- <-. eauto. }
  destruct (hdrs s1 !! (block - sizeof_header_t)) as [h1|]; [|discriminate].
  destruct (free _ block) as [s3| |] eqn:Hf; simpl in Hr; try discriminate.
  injection Hr as <- <-.
  destruct (free_wf_frees _ s3 l1 block (wf_set_bytes _ _ _ Hw1) (Hsub _ Hin) Hf)
    as (l3 & Hw3 & _).
  eauto.
Qed.

(** * The claims *)

(** C1, as stated, fails where the break cannot move: with one block in use
    and no room above it, no block fits a request of 8 bytes and [malloc]
    returns [NULL] without appending anything. *)
Lemma first_fit_or_grow_fails_at_limit :
  wf one_block_full [4096] /\
  find (fits (hdrs one_block_full) 8) [4096] = None /\
  malloc one_block_full 8 = Ret (one_block_full, NULL) /\
  ~ first_fit_or_grow one_block_full [4096] 8.
Proof.
  assert (E : malloc one_block_full 8 = Ret (one_block_full, NULL)) by reflexivity.
  split; [exact one_block_full_wf|]. split; [reflexivity|]. split; [exact E|].
  intros [_ H]. destruct H as (s' & Hm & _); [reflexivity|].
  rewrite E in Hm. discriminate.
Qed.

(** C1, amended.  In a well-formed state and for [sz > 0]: if some block of
    the chain is free and large enough, [malloc] returns the payload of the
    first such block in chain order, clears its flag and changes nothing
    else, the break included.  If no block fits and [sizeof(header_t) + sz]
    fits [intptr_t], [malloc] asks [sbrk] for that many bytes: when the break
    cannot move that far it returns [NULL] and the state is unchanged;
    otherwise a header [(sz, in use, NULL)] is written at the old break,
    linked behind the old tail, becomes the tail, and its payload address is
    returned. *)
Theorem malloc_first_fit_or_grow (s : state) (l : list Z) (sz : Z) :
  wf s l -> 0 < sz ->
  (forall l1 x l2 h,
     l = l1 ++ x :: l2 ->
     hdrs s !! x = Some h -> is_free h = true -> sz <= size h ->
     (forall y, y ∈ l1 -> fits (hdrs s) sz y = false) ->
     malloc s sz =
       Ret (set_hdrs s (<[x := set_is_free h false]> (hdrs s)),
            x + sizeof_header_t)) /\
  ((forall y, y ∈ l -> fits (hdrs s) sz y = false) ->
   sz + sizeof_header_t < INTPTR_BOUND ->
   if decide (brk s + (sizeof_header_t + sz) <= heap_limit s) then
     exists s',
       malloc s sz = Ret (s', brk s + sizeof_header_t) /\
       hdrs s' !! brk s = Some (Header sz false NULL) /\
       chain_ok s' (l ++ [brk s]) /\
       tail s' = brk s /\
       brk s' = brk s + (sizeof_header_t + sz) /\
       wf s' (l ++ [brk s])
   else malloc s sz = Ret (s, NULL)).
Proof.
  intros Hwf Hsz. pose proof sizeof_header_t_pos as Hhdr.
  pose proof (wf_chain_ok s l Hwf) as Hok.
  assert (Hsz0 : sz <> 0) by lia.
  split.
  - intros l1 x l2 h -> Hlk Hfree Hle Hfirst.
    assert (Hfind : find (fits (hdrs s) sz) (l1 ++ x :: l2) = Some x).
    { apply find_first. exists l1, l2. split; [reflexivity|]. split; [|exact Hfirst].
      apply fits_true. eauto. }
    destruct (malloc_reuse s sz _ x Hok Hsz0 Hfind) as (h' & Hlk' & _ & _ & E).
    rewrite Hlk in Hlk'. injection Hlk' as <-. exact E.
  - intros Hnone Hmax. apply find_nothing in Hnone.
    assert (Hincr : to_intptr (wrap (sizeof_header_t + sz)) = sizeof_header_t + sz).
    { rewrite wrap_small.
      - apply to_intptr_small. lia.
      - unfold is_size_t, SIZE_MOD, INTPTR_BOUND in *. lia. }
    pose proof (wf_window s l Hwf) as Hwin0.
    destruct (decide (brk s + (sizeof_header_t + sz) <= heap_limit s)) as [Hfit | Hfit].
    + assert (Hwin : heap_base s <= brk s + to_intptr (wrap (sizeof_header_t + sz))
                       <= heap_limit s) by (rewrite Hincr; lia).
      destruct (malloc_grow s sz l Hwf Hsz0 Hnone Hwin)
        as (s1 & E & Hok1 & HB & _ & _ & Hbrk & _).
      exists s1. split; [exact E|]. split; [exact HB|]. split; [exact Hok1|].
      split.
      { destruct Hok1 as (_ & _ & Ht). rewrite Ht. apply last_or_null_snoc. }
      split; [rewrite Hbrk, Hincr; reflexivity|].
      destruct (malloc_wf s s1 l sz _ Hwf ltac:(lia) Hmax E) as [Hw | (_ & Hw)]; [|exact Hw].
      exfalso. destruct Hw as (Hc1 & _). destruct Hok1 as (Hc2 & _).
      pose proof (chain_at_unique _ _ _ _ Hc1 Hc2) as Heq.
      apply (f_equal (@length Z)) in Heq. rewrite length_app in Heq. simpl in Heq. lia.
    + apply (malloc_fail s sz l Hok Hsz0 Hnone). rewrite Hincr. lia.
Qed.

Lemma malloc_first_fit_or_grow_witness :
  malloc two_blocks 10 =
    Ret (set_hdrs two_blocks
           (<[4096 := set_is_free (Header 100 true 4220) false]> (hdrs two_blocks)),
         4096 + sizeof_header_t).
Proof.
  assert (Hwf : wf two_blocks [4096; 4220]).
  { unfold wf, two_blocks. simpl.
    split.
    { split; [reflexivity|]. split; [discriminate|].
      eexists. split; [reflexivity|]. simpl.
      split; [reflexivity|]. split; [discriminate|].
      eexists. split; reflexivity. }
    split; [reflexivity|].
    split.
    { split; [lia|]. eexists. split; [reflexivity|]. simpl. split; [lia|].
      split; [unfold sizeof_header_t; lia|].
      eexists. split; [reflexivity|]. simpl. split; [lia|].
      unfold sizeof_header_t. lia. }
    unfold INTPTR_BOUND. lia. }
  apply (malloc_first_fit_or_grow two_blocks [4096; 4220] 10 Hwf ltac:(lia))
    with (l1 := []) (l2 := [4220]).
  - reflexivity.
  - reflexivity.
  - reflexivity.
  - simpl. lia.
  - intros y Hy. apply elem_of_nil in Hy. contradiction.
Defined.

(** C2. For a capability [block] of the chain whose payload ends at the
    break, [free] moves the break down by exactly [sizeof(header_t)] plus the
    stored size, which puts it at the address of the block's header, where
    it was before the block was created.  If the block was the only one,
    [head] and [tail] become [NULL]; otherwise the node whose next link
    pointed to the old tail becomes [tail] and its next link is [NULL]. *)
Theorem free_trailing_block (s : state) (l : list Z) (block : Z) (h : header_t) :
  wf s l -> block - sizeof_header_t ∈ l ->
  hdrs s !! (block - sizeof_header_t) = Some h ->
  block + size h = brk s ->
  exists s',
    free s block = Ret s' /\
    brk s' = brk s - (sizeof_header_t + size h) /\
    brk s' = block - sizeof_header_t /\
    tail s = block - sizeof_header_t /\
    (l = [block - sizeof_header_t] -> head s' = NULL /\ tail s' = NULL) /\
    (forall l1 p, l = l1 ++ [p; block - sizeof_header_t] ->
       exists hp, hdrs s !! p = Some hp /\ next hp = tail s /\
                  tail s' = p /\ head s' = head s /\
                  hdrs s' !! p = Some (set_next hp NULL)) /\
    (exists l0, l = l0 ++ [block - sizeof_header_t] /\ wf s' l0).
Proof.
  intros Hwf Hin Hlk Hend.
  destruct (free_wf_release s l block h Hwf Hin Hlk Hend)
    as (l0 & s' & Hl & Hf & Hwf' & Hbrk & Hhd & Hold & _).
  assert (Htail : tail s = block - sizeof_header_t).
  { destruct Hwf as (_ & Ht & _). rewrite Ht, Hl. apply last_or_null_snoc. }
  exists s'. split; [exact Hf|]. split; [lia|]. split; [exact Hbrk|].
  split; [exact Htail|]. split; [|split].
  - intros E. rewrite E in Hl. change [block - sizeof_header_t]
      with ([] ++ [block - sizeof_header_t]) in Hl at 1.
    apply app_inj_tail in Hl as [<- _].
    split; [exact Hhd|]. destruct Hwf' as (_ & Ht & _). exact Ht.
  - intros l1 p E. rewrite E in Hl.
    replace (l1 ++ [p; block - sizeof_header_t])
      with ((l1 ++ [p]) ++ [block - sizeof_header_t]) in Hl
      by (rewrite <- app_assoc; reflexivity).
    apply app_inj_tail in Hl as [<- _].
    destruct Hwf as (Hc & _). rewrite E in Hc.
    destruct (chain_at_pred _ _ _ _ _ Hc) as (hp & Hp & Hn).
    exists hp. split; [exact Hp|]. split; [congruence|].
    split. { destruct Hwf' as (_ & Ht & _). rewrite Ht. apply last_or_null_snoc. }
    split. { rewrite Hhd. destruct (decide (l1 ++ [p] = [])) as [E0|_]; [|reflexivity].
             destruct l1; discriminate. }
    rewrite (Hold p hp) by (try exact Hp; apply elem_of_app; right;
                            apply list_elem_of_singleton; reflexivity).
    rewrite last_or_null_snoc.
    destruct (decide (p = p)) as [_|Hne]; [reflexivity | contradiction].
  - exists l0. split; assumption.
Qed.

Lemma free_trailing_block_witness :
  exists s',
    free one_block 4120 = Ret s' /\
    brk s' = brk one_block - (sizeof_header_t + 100) /\
    brk s' = 4120 - sizeof_header_t /\
    tail one_block = 4120 - sizeof_header_t /\
    (([4096] : list Z) = [4120 - sizeof_header_t] -> head s' = NULL /\ tail s' = NULL) /\
    (forall l1 p, [4096] = l1 ++ [p; 4120 - sizeof_header_t] ->
       exists hp, hdrs one_block !! p = Some hp /\ next hp = tail one_block /\
                  tail s' = p /\ head s' = head one_block /\
                  hdrs s' !! p = Some (set_next hp NULL)) /\
    (exists l0, [4096] = l0 ++ [4120 - sizeof_header_t] /\ wf s' l0).
Proof.
  apply (free_trailing_block one_block [4096] 4120 (Header 100 false NULL)).
  - exact one_block_wf.
  - apply elem_of_cons. left. reflexivity.
  - reflexivity.
  - reflexivity.
Defined.



(** C4. For a non-null capability [block] whose stored size is smaller than
    the new size, if the inner [malloc] returns [NULL] then [realloc] returns
    [NULL] and the state is exactly the one before the call: the old block is
    still linked and in use, its header fields and its payload bytes are
    the same. *)
Theorem realloc_failure_keeps_block (s s1 : state) (l : list Z)
    (block sz : Z) (h : header_t) :
  wf s l -> block <> NULL ->
  hdrs s !! (block - sizeof_header_t) = Some h ->
  size h < sz -> 0 < sz ->
  malloc s sz = Ret (s1, NULL) ->
  realloc s block sz = Ret (s, NULL) /\ s1 = s.
Proof.
  intros Hwf Hb Hlk Hlt Hsz Hm.
  pose proof (malloc_null_unchanged s s1 l sz Hwf Hm) as ->.
  split; [|reflexivity]. unfold realloc.
  apply Z.eqb_neq in Hb. rewrite Hb.
  replace (sz =? 0) with false by (symmetry; apply Z.eqb_neq; lia).
  simpl. rewrite Hlk.
  replace (sz <=? size h) with false by (symmetry; apply Z.leb_gt; exact Hlt).
  rewrite Hm. reflexivity.
Qed.

Lemma realloc_failure_keeps_block_witness :
  realloc one_block_full 4120 200 = Ret (one_block_full, NULL) /\
  one_block_full = one_block_full.
Proof.
  apply (realloc_failure_keeps_block one_block_full one_block_full [4096]
           4120 200 (Header 100 false NULL)).
  - exact one_block_full_wf.
  - discriminate.
  - reflexivity.
  - simpl. lia.
  - lia.
  - reflexivity.
Defined.

(** C5. When [malloc] takes a free block of the chain, the header keeps the
    size it was created with, also when the request is smaller; only the
    flag changes.  In the run [malloc(100)], [malloc(8)], [free] of the first
    block, [malloc(10)], the last call returns the address of the first and
    its header still stores 100. *)
Theorem reuse_keeps_stored_size (s : state) (l : list Z) (sz x : Z) :
  chain_ok s l -> sz <> 0 ->
  find (fits (hdrs s) sz) l = Some x ->
  (exists h s',
     hdrs s !! x = Some h /\ sz <= size h /\
     malloc s sz = Ret (s', x + sizeof_header_t) /\
     hdrs s' !! x = Some (Header (size h) false (next h)) /\
     brk s' = brk s) /\
  reuse_run = Ret (4120, 4120, Some 100).
Proof.
  intros Hok Hsz Hfind. split; [|reflexivity].
  destruct (malloc_reuse s sz l x Hok Hsz Hfind) as (h & Hlk & _ & Hle & E).
  exists h. eexists. split; [exact Hlk|]. split; [exact Hle|].
  split; [exact E|]. simpl. split; [apply lookup_insert_eq | reflexivity].
Qed.

Lemma reuse_keeps_stored_size_witness :
  (exists h s',
     hdrs two_blocks !! 4096 = Some h /\ 10 <= size h /\
     malloc two_blocks 10 = Ret (s', 4096 + sizeof_header_t) /\
     hdrs s' !! 4096 = Some (Header (size h) false (next h)) /\
     brk s' = brk two_blocks) /\
  reuse_run = Ret (4120, 4120, Some 100).
Proof.
  apply (reuse_keeps_stored_size two_blocks [4096; 4220] 10 4096).
  - split; [|split].
    + simpl. split; [reflexivity|]. split; [discriminate|].
      eexists. split; [reflexivity|]. simpl.
      split; [reflexivity|]. split; [discriminate|].
      eexists. split; reflexivity.
    + apply NoDup_cons. split.
      * intros H. apply list_elem_of_singleton in H. discriminate.
      * apply NoDup_singleton.
    + reflexivity.
  - discriminate.
  - reflexivity.
Defined.

(** C6. For a non-null capability [block] whose header stores a size that is
    at least the new size [sz > 0], [realloc] returns [block] itself and the
    whole state, headers and payload bytes alike, is exactly what it was:
    nothing is moved, shrunk or rewritten. *)
Theorem realloc_fits_in_place (s : state) (block sz : Z) (h : header_t) :
  block <> NULL -> 0 < sz ->
  hdrs s !! (block - sizeof_header_t) = Some h ->
  sz <= size h ->
  realloc s block sz = Ret (s, block).
Proof.
  intros Hb Hsz Hlk Hle. unfold realloc.
  apply Z.eqb_neq in Hb. rewrite Hb.
  replace (sz =? 0) with false by (symmetry; apply Z.eqb_neq; lia).
  simpl. rewrite Hlk.
  replace (sz <=? size h) with true by (symmetry; apply Z.leb_le; exact Hle).
  reflexivity.
Qed.

Lemma realloc_fits_in_place_witness :
  realloc one_block 4120 10 = Ret (one_block, 4120).
Proof.
  apply (realloc_fits_in_place one_block 4120 10 (Header 100 false NULL)).
  - discriminate.
  - lia.
  - reflexivity.
  - simpl. lia.
Defined.



(** C8, at the input where it fails.  [malloc(8)], then [malloc] of
    [SIZE_MAX - sizeof(header_t) + 1], whose sum with the header size wraps
    to zero so that [sbrk(0)] succeeds without moving the break, then
    [malloc(8)] again: the last call writes its header over the one of the
    second and links it to itself.  In the resulting state the next link of
    [tail] is [tail], no list of nodes is a chain from [head], and a further
    [malloc] never leaves [get_free_block], whatever fuel the walk is
    given. *)
Theorem wrapped_size_breaks_chain :
  wrapped_run = Ret (wrapped_state, 4152) /\
  (exists h, hdrs wrapped_state !! tail wrapped_state = Some h /\
             next h = tail wrapped_state /\ tail wrapped_state <> NULL) /\
  (forall l, ~ chain_ok wrapped_state l) /\
  malloc wrapped_state 8 = Diverge /\
  (forall fuel,
     get_free_block_loop fuel (hdrs wrapped_state) (head wrapped_state) 8
       = Diverge).
Proof.
  assert (H1 : hdrs wrapped_state !! 4096 = Some (Header 8 false 4128)) by reflexivity.
  assert (H2 : hdrs wrapped_state !! 4128 = Some (Header 8 false 4128)) by reflexivity.
  assert (Hspin : forall fuel,
            get_free_block_loop fuel (hdrs wrapped_state) 4128 8 = Diverge).
  { induction fuel as [|fuel IH]; [reflexivity|].
    cbn [get_free_block_loop]. change (4128 =? NULL) with false. cbv iota.
    rewrite H2. exact IH. }
  assert (Hall : forall fuel,
            get_free_block_loop fuel (hdrs wrapped_state) (head wrapped_state) 8
              = Diverge).
  { intros [|fuel]; [reflexivity|].
    cbn [get_free_block_loop]. change (head wrapped_state =? NULL) with false.
    cbv iota. change (head wrapped_state) with 4096. rewrite H1. apply Hspin. }
  split; [reflexivity|]. split.
  { exists (Header 8 false 4128). split; [exact H2|]. split; [reflexivity | discriminate]. }
  split; [|split; [reflexivity | exact Hall]].
  intros l (Hc & Hnd & _).
  destruct l as [|a l]; cbn [chain_at] in Hc; [discriminate|].
  destruct Hc as (Ea & _ & h & Hh & Hc). subst a.
  change (head wrapped_state) with 4096 in *.
  rewrite H1 in Hh. injection Hh as <-. cbn [next] in Hc.
  destruct l as [|b l]; cbn [chain_at] in Hc; [discriminate|].
  destruct Hc as (Eb & _ & h & Hh & Hc). subst b.
  rewrite H2 in Hh. injection Hh as <-. cbn [next] in Hc.
  destruct l as [|c l]; cbn [chain_at] in Hc; [discriminate|].
  destruct Hc as (Ec & _). subst c.
  apply NoDup_cons in Hnd as (_ & Hnd). apply NoDup_cons in Hnd as (Hnd & _).
  apply Hnd. apply elem_of_cons. left. reflexivity.
Qed.





(** * Further properties *)

(** ** What the entry points leave alone *)

(** [malloc] writes no payload byte and does not touch the window of
    [sbrk]. *)
Lemma malloc_keeps (s s' : state) (sz p : Z) :
  malloc s sz = Ret (s', p) ->
  bytes s' = bytes s /\ heap_base s' = heap_base s /\
  heap_limit s' = heap_limit s.
Proof.
  unfold malloc. destruct (sz =? 0); [intros [= <- <-]; auto|].
  destruct (get_free_block s sz) as [hd| |]; simpl; try discriminate.
  destruct (negb (hd =? NULL)).
  - destruct (hdrs s !! hd); [|discriminate]. intros [= <- <-]. auto.
  - unfold sbrk. destruct (_ && _).
    + destruct (brk s =? SBRK_FAILED); [intros [= <- <-]; auto|].
      cbn [tail hdrs set_brk head].
      destruct (negb (tail s =? NULL)).
      * destruct (_ !! tail s); simpl; [|discriminate]. intros [= <- <-]. auto.
      * simpl. intros [= <- <-]. auto.
    + change (SBRK_FAILED =? SBRK_FAILED) with true. cbv iota.
      intros [= <- <-]. auto.
Qed.

Lemma free_keeps (s s' : state) (block : Z) :
  free s block = Ret s' ->
  bytes s' = bytes s /\ heap_base s' = heap_base s /\
  heap_limit s' = heap_limit s.
Proof.
  intros Hf. split; [exact (free_bytes _ _ _ Hf)|]. revert Hf.
  unfold free. destruct (block =? NULL); [intros [= <-]; auto|].
  assert (Hs0 : heap_base (sbrk s 0).1 = heap_base s /\
                heap_limit (sbrk s 0).1 = heap_limit s).
  { unfold sbrk. destruct (_ && _); auto. }
  destruct (sbrk s 0) as [s0 pb]. simpl in Hs0.
  destruct (hdrs s0 !! (block - sizeof_header_t)) as [h|]; [|discriminate].
  destruct (block + size h =? pb).
  - destruct (head s0 =? tail s0).
    + simpl. destruct (hdrs s0 !! (block - sizeof_header_t)); [|discriminate].
      intros [= <-]. unfold sbrk. simpl. destruct (_ && _); exact Hs0.
    + destruct (free_loop _ _ _ _) as [[m tl]| |]; simpl; try discriminate.
      destruct (m !! (block - sizeof_header_t)); [|discriminate].
      intros [= <-]. unfold sbrk. simpl. destruct (_ && _); exact Hs0.
  - intros [= <-]. exact Hs0.
Qed.

(** ** Tiling *)

Lemma packed_agree (m m' : gmap Z header_t) (lo hi : Z) (l : list Z) :
  (forall x h, x ∈ l -> m !! x = Some h ->
     exists h', m' !! x = Some h' /\ size h' = size h) ->
  packed m lo l hi -> packed m' lo l hi.
Proof.
  revert lo. induction l as [|y l' IH]; simpl; intros lo Hag H; [exact H|].
  destruct H as (Hlo & h & Hm & Hrest).
  destruct (Hag y h) as (h' & Hm' & Hs); [apply elem_of_cons; auto | exact Hm |].
  split; [exact Hlo|]. exists h'. rewrite Hs. split; [exact Hm'|].
  apply IH; [|exact Hrest].
  intros x hx Hx. apply Hag. apply elem_of_cons. auto.
Qed.

Lemma packed_snoc (m : gmap Z header_t) (lo : Z) (l : list Z) (t : Z)
    (ht : header_t) :
  packed m lo l t -> m !! t = Some ht ->
  packed m lo (l ++ [t]) (t + sizeof_header_t + size ht).
Proof.
  revert lo. induction l as [|y l' IH]; simpl; intros lo H Hm.
  - split; [congruence|]. exists ht. auto.
  - destruct H as (Hlo & h & Hmy & Hrest).
    split; [exact Hlo|]. exists h. eauto.
Qed.

Lemma packed_snoc_inv (m : gmap Z header_t) (lo hi : Z) (l : list Z) (t : Z) :
  packed m lo (l ++ [t]) hi -> packed m lo l t.
Proof.
  revert lo. induction l as [|y l' IH]; simpl; intros lo H.
  - destruct H as (Ht & _). congruence.
  - destruct H as (Hlo & h & Hm & Hrest).
    split; [exact Hlo|]. exists h. eauto.
Qed.

Lemma packed_used (m : gmap Z header_t) (lo hi : Z) (l : list Z) :
  packed m lo l hi -> hi = lo + heap_used m l.
Proof.
  revert lo. induction l as [|y l' IH]; simpl; intros lo H.
  - lia.
  - destruct H as (-> & h & Hm & Hrest). apply IH in Hrest.
    unfold heap_used in *. simpl. unfold footprint at 1. rewrite Hm. lia.
Qed.

(** In a layout the addresses rise along the chain. *)
Lemma layout_sorted (m : gmap Z header_t) (lo hi : Z) (l : list Z) :
  layout m lo l hi -> StronglySorted Z.lt l.
Proof.
  revert lo. induction l as [|y l' IH]; simpl; intros lo H.
  - constructor.
  - destruct H as (Hlo & h & Hm & Hsz & Hrest). constructor; [eauto|].
    apply Forall_forall. intros x Hx.
    destruct (layout_elem _ _ _ _ x Hrest Hx) as (Hle & _).
    pose proof sizeof_header_t_pos. lia.
Qed.

Lemma in_chain_wf (s : state) (l : list Z) (block : Z) :
  wf s l -> in_chain s block -> block - sizeof_header_t ∈ l.
Proof.
  intros (Hc & _) (l' & Hc' & Hin).
  rewrite (chain_at_unique _ _ _ _ Hc Hc'). exact Hin.
Qed.

Lemma wf_in_chain (s : state) (l : list Z) (block : Z) :
  wf s l -> block - sizeof_header_t ∈ l -> in_chain s block.
Proof. intros (Hc & _) Hin. exists l. auto. Qed.

(** ** The entry points keep the heap tiled *)

Lemma malloc_tiled (s s' : state) (l : list Z) (sz p : Z) :
  tiled s l -> fits_intptr sz -> malloc s sz = Ret (s', p) ->
  tiled s' l \/ (p = brk s + sizeof_header_t /\ tiled s' (l ++ [brk s])).
Proof.
  intros (Hwf & Hp) (H0 & Hmax) Hm.
  pose proof (wf_chain_ok s l Hwf) as Hok.
  destruct (decide (sz = 0)) as [-> | Hsz].
  { rewrite malloc_zero in Hm. injection Hm as <- <-. left. split; assumption. }
  destruct (find (fits (hdrs s) sz) l) as [x|] eqn:Hfind.
  - destruct (malloc_reuse s sz l x Hok Hsz Hfind) as (h & Hlk & _ & _ & E).
    rewrite E in Hm. injection Hm as <- <-. left.
    split; [apply wf_set_is_free; assumption|]. simpl.
    eapply packed_agree; [|exact Hp]. intros y hy _ Hy.
    destruct (decide (x = y)) as [-> | Hne].
    + rewrite lookup_insert_eq. rewrite Hlk in Hy. injection Hy as <-.
      eexists. split; reflexivity.
    + rewrite lookup_insert_ne by exact Hne. eauto.
  - destruct (decide (heap_base s <= brk s + to_intptr (wrap (sizeof_header_t + sz))
                        <= heap_limit s)) as [Hwin | Hwin].
    + destruct (malloc_grow s sz l Hwf Hsz Hfind Hwin)
        as (s1 & E & Hok1 & HB & Hold & _ & Hbrk & _ & Hbase & _).
      rewrite E in Hm. injection Hm as <- <-. right. split; [reflexivity|].
      split; [apply (malloc_grow_wf s s1 l sz); try assumption; lia|].
      rewrite Hbrk, Hbase, grow_increment by (try assumption; lia).
      replace (brk s + (sizeof_header_t + sz))
        with (brk s + sizeof_header_t + size (Header sz false NULL))
        by (simpl; lia).
      apply packed_snoc; [|exact HB].
      eapply packed_agree; [|exact Hp].
      intros x h Hx Hlk. rewrite (Hold x h Hx Hlk). eexists. split; reflexivity.
    + rewrite (malloc_fail s sz l Hok Hsz Hfind Hwin) in Hm.
      injection Hm as <- <-. left. split; assumption.
Qed.

Lemma free_tiled (s s' : state) (l : list Z) (block : Z) :
  tiled s l -> block - sizeof_header_t ∈ l -> free s block = Ret s' ->
  exists l', tiled s' l' /\ (l' = l \/ l = l' ++ [block - sizeof_header_t]).
Proof.
  intros (Hwf & Hp) Hin Hf.
  destruct (wf_elem _ _ _ Hwf Hin) as (h & Hm & _).
  destruct (decide (block + size h = brk s)) as [E | E].
  - destruct (free_wf_release s l block h Hwf Hin Hm E)
      as (l0 & s1 & Hl & Hf1 & Hwf1 & Hbrk & _ & Hold & _ & _ & Hbase & _).
    rewrite Hf1 in Hf. injection Hf as <-. exists l0.
    split; [|right; exact Hl]. split; [exact Hwf1|].
    rewrite Hbrk, Hbase. rewrite Hl in Hp. apply packed_snoc_inv in Hp.
    eapply packed_agree; [|exact Hp].
    intros x hx Hx Hlk. rewrite (Hold x hx Hx Hlk). eexists. split; reflexivity.
  - destruct (free_wf_mark s l block h Hwf Hin Hm E) as (Hf1 & Hwf1).
    rewrite Hf1 in Hf. injection Hf as <-. exists l.
    split; [|left; reflexivity]. split; [exact Hwf1|]. simpl.
    eapply packed_agree; [|exact Hp]. intros y hy _ Hy.
    destruct (decide (block - sizeof_header_t = y)) as [Ey | Hne].
    + rewrite Ey. rewrite lookup_insert_eq. rewrite Ey in Hm.
      rewrite Hm in Hy. injection Hy as <-. eexists. split; reflexivity.
    + rewrite lookup_insert_ne by exact Hne. eauto.
Qed.

(** Every valid call returns, and leaves the heap tiled inside the same
    window. *)
Lemma malloc_call_ok (s : state) (l : list Z) (sz : Z) :
  tiled s l -> fits_intptr sz ->
  exists s' r l',
    malloc s sz = Ret (s', r) /\ tiled s' l' /\
    (forall x, x ∈ l -> x ∈ l') /\
    bytes s' = bytes s /\
    heap_base s' = heap_base s /\ heap_limit s' = heap_limit s.
Proof.
  intros Ht Hv. destruct (malloc_total s l sz (proj1 Ht)) as (s' & r & Hm).
  destruct (malloc_keeps _ _ _ _ Hm) as (Hby & Hb & Hl).
  exists s', r.
  destruct (malloc_tiled s s' l sz r Ht Hv Hm) as [Ht' | (_ & Ht')].
  - exists l. auto 10.
  - exists (l ++ [brk s]). split; [exact Hm|]. split; [exact Ht'|].
    split; [|auto]. intros x Hx. apply elem_of_app. auto.
Qed.

Lemma free_call_ok (s : state) (l : list Z) (block : Z) :
  tiled s l -> block = NULL \/ in_chain s block ->
  exists s' l',
    free s block = Ret s' /\ tiled s' l' /\
    (forall x, x ∈ l' -> x ∈ l) /\
    bytes s' = bytes s /\
    heap_base s' = heap_base s /\ heap_limit s' = heap_limit s.
Proof.
  intros Ht [-> | Hin].
  - exists s, l. rewrite free_null. auto 10.
  - apply (in_chain_wf s l block (proj1 Ht)) in Hin.
    destruct (free_wf s l block (proj1 Ht) Hin) as (s' & _ & Hf & _).
    destruct (free_keeps _ _ _ Hf) as (Hby & Hb & Hl).
    destruct (free_tiled s s' l block Ht Hin Hf) as (l' & Ht' & Hl').
    exists s', l'. split; [exact Hf|]. split; [exact Ht'|]. split; [|auto].
    intros x Hx. destruct Hl' as [-> | ->]; [exact Hx|].
    apply elem_of_app. auto.
Qed.

Lemma calloc_call_ok (s : state) (l : list Z) (num nsize : Z) :
  tiled s l -> valid_call s (Calloc num nsize) ->
  exists s' r l',
    calloc s num nsize = Ret (s', r) /\ tiled s' l' /\
    heap_base s' = heap_base s /\ heap_limit s' = heap_limit s.
Proof.
  intros Ht (Hn & Hs & Hfits). unfold calloc.
  destruct ((num =? 0) || (nsize =? 0)) eqn:E0.
  { exists s, NULL, l. auto. }
  apply orb_false_iff in E0 as [En Es]. apply Z.eqb_neq in En, Es.
  destruct (nsize =? wrap (num * nsize) / num) eqn:Echk; simpl.
  2:{ exists s, NULL, l. auto. }
  assert (Hfit : num * nsize < SIZE_MOD).
  { destruct (Z_lt_le_dec (num * nsize) SIZE_MOD) as [H | H]; [exact H|].
    apply (calloc_overflow_check num nsize Hn Hs En) in H.
    apply Z.eqb_eq in Echk. contradiction. }
  rewrite wrap_small by (unfold is_size_t in *; nia).
  destruct (malloc_call_ok s l (num * nsize) Ht (Hfits Hfit))
    as (s1 & q & l1 & Hm & Ht1 & _ & _ & Hb & Hl).
  rewrite Hm. simpl. destruct (q =? NULL).
  - exists s1, NULL, l1. auto.
  - eexists _, q, l1. split; [reflexivity|]. split; [exact Ht1|]. auto.
Qed.

Lemma realloc_call_ok (s : state) (l : list Z) (block sz : Z) :
  tiled s l -> valid_call s (Realloc block sz) ->
  exists s' r l',
    realloc s block sz = Ret (s', r) /\ tiled s' l' /\
    heap_base s' = heap_base s /\ heap_limit s' = heap_limit s.
Proof.
  intros Ht (Hb & Hv). unfold realloc.
  destruct (malloc_call_ok s l sz Ht Hv)
    as (s1 & q & l1 & Hm & Ht1 & Hsub & _ & Hb1 & Hl1).
  destruct ((block =? NULL) || (sz =? 0)) eqn:E0.
  { exists s1, q, l1. auto. }
  apply orb_false_iff in E0 as [Eb _]. apply Z.eqb_neq in Eb.
  destruct Hb as [Hb | Hin]; [contradiction|].
  apply (in_chain_wf s l block (proj1 Ht)) in Hin.
  destruct (wf_elem _ _ _ (proj1 Ht) Hin) as (h & Hlk & _). rewrite Hlk.
  destruct (sz <=? size h).
  { exists s, block, l. auto. }
  rewrite Hm. simpl. destruct (q =? NULL); simpl.
  { exists s1, q, l1. auto. }
  destruct (wf_elem _ _ _ (proj1 Ht1) (Hsub _ Hin)) as (h1 & Hlk1 & _).
  rewrite Hlk1.
  assert (Ht2 : tiled (set_bytes s1 (memcpy (bytes s1) q block (size h1))) l1)
    by exact Ht1.
  destruct (free_call_ok _ l1 block Ht2) as (s3 & l3 & Hf & Ht3 & _ & _ & Hb3 & Hl3).
  { right. apply (wf_in_chain _ l1); [exact (proj1 Ht2) | exact (Hsub _ Hin)]. }
  rewrite Hf. simpl. exists s3, q, l3.
  split; [reflexivity|]. split; [exact Ht3|].
  simpl in Hb3, Hl3. split; congruence.
Qed.

Lemma run_call_ok (s : state) (l : list Z) (c : call) :
  tiled s l -> valid_call s c ->
  exists s' r l',
    run_call s c = Ret (s', r) /\ tiled s' l' /\
    heap_base s' = heap_base s /\ heap_limit s' = heap_limit s.
Proof.
  intros Ht Hv. destruct c as [sz | num nsize | block sz | block]; simpl.
  - destruct (malloc_call_ok s l sz Ht Hv) as (s' & r & l' & H & H1 & _ & _ & H2).
    exists s', r, l'. auto.
  - apply (calloc_call_ok s l); assumption.
  - apply (realloc_call_ok s l); assumption.
  - destruct (free_call_ok s l block Ht Hv) as (s' & l' & Hf & H1 & _ & _ & H2).
    rewrite Hf. simpl. exists s', NULL, l'. auto.
Qed.

Lemma init_tiled (base limit : Z) :
  0 < base -> base <= limit -> limit < INTPTR_BOUND ->
  tiled (init base limit) [].
Proof.
  intros H1 H2 H3. split; [apply init_wf; assumption | reflexivity].
Qed.

Lemma reachable_tiled (base limit : Z) (s : state) :
  0 < base -> base <= limit -> limit < INTPTR_BOUND ->
  reachable base limit s ->
  exists l, tiled s l /\ heap_base s = base /\ heap_limit s = limit.
Proof.
  intros H1 H2 H3 Hr. induction Hr as [|s s' c r Hr IH Hv Hrun].
  - exists []. split; [apply init_tiled; assumption | auto].
  - destruct IH as (l & Ht & Hb & Hl).
    destruct (run_call_ok s l c Ht Hv) as (s1 & r1 & l1 & Hrun1 & Ht1 & Hb1 & Hl1).
    rewrite Hrun in Hrun1. injection Hrun1 as <- <-.
    exists l1. split; [exact Ht1|]. split; congruence.
Qed.

(** ** Lemmas on fitting blocks and grants *)

Lemma find_exists (f : Z -> bool) (l : list Z) (x : Z) :
  x ∈ l -> f x = true -> exists y, find f l = Some y.
Proof.
  intros Hx Hf. destruct (find f l) as [y|] eqn:E; [eauto|].
  rewrite (proj1 (find_nothing f l) E x Hx) in Hf. discriminate.
Qed.

Lemma sorted_first (l1 l2 : list Z) (y z : Z) :
  StronglySorted Z.lt (l1 ++ y :: l2) ->
  z ∈ l1 ++ y :: l2 -> z ∉ l1 -> y <= z.
Proof.
  induction l1 as [|a l1 IH]; simpl; intros Hs Hz Hn.
  - apply StronglySorted_inv in Hs as (_ & Hall).
    apply elem_of_cons in Hz as [-> | Hz]; [lia|].
    rewrite Forall_forall in Hall. specialize (Hall z Hz). lia.
  - apply StronglySorted_inv in Hs as (Hs & _).
    apply not_elem_of_cons in Hn as (Hza & Hn).
    apply elem_of_cons in Hz as [-> | Hz]; [contradiction|].
    apply IH; assumption.
Qed.

(** In a well-formed chain the first fitting block is the fitting block of
    lowest address. *)
Lemma first_fit_lowest (s : state) (l : list Z) (sz x y : Z) :
  wf s l -> find (fits (hdrs s) sz) l = Some x ->
  y ∈ l -> fits (hdrs s) sz y = true -> x <= y.
Proof.
  intros (_ & _ & Hl & _) Hfind Hy Hfy.
  apply find_first in Hfind as (l1 & l2 & -> & _ & Hl1).
  apply layout_sorted in Hl.
  apply (sorted_first l1 l2 x y Hl Hy).
  intros Hin. rewrite (Hl1 y Hin) in Hfy. discriminate.
Qed.

(** The block [malloc] hands out is linked, in use, at least as large as
    the request, and lies below the break. *)
Lemma malloc_grant (s s' : state) (l : list Z) (sz q : Z) :
  wf s l -> fits_intptr sz -> malloc s sz = Ret (s', q) -> q <> NULL ->
  exists l' h,
    wf s' l' /\ (forall x, x ∈ l -> x ∈ l') /\
    q - sizeof_header_t ∈ l' /\
    hdrs s' !! (q - sizeof_header_t) = Some h /\
    is_free h = false /\ sz <= size h /\
    heap_base s' <= q - sizeof_header_t /\ q + size h <= brk s' /\
    (brk s' = brk s \/ brk s' = brk s + sizeof_header_t + sz).
Proof.
  intros Hwf (H0 & Hmax) Hm Hq. pose proof sizeof_header_t_pos as Hhdr.
  pose proof (wf_chain_ok s l Hwf) as Hok.
  destruct (decide (sz = 0)) as [-> | Hsz].
  { rewrite malloc_zero in Hm. injection Hm as _ <-. contradiction. }
  destruct (find (fits (hdrs s) sz) l) as [x|] eqn:Hfind.
  - destruct (malloc_reuse s sz l x Hok Hsz Hfind) as (h & Hlk & _ & Hle & E).
    rewrite E in Hm. injection Hm as <- <-.
    destruct (find_elem _ _ _ Hfind) as (Hin & _).
    destruct (wf_elem s l x Hwf Hin) as (h' & Hlk' & _ & Hlo & Hhi).
    rewrite Hlk in Hlk'. injection Hlk' as <-.
    replace (x + sizeof_header_t - sizeof_header_t) with x by lia.
    exists l, (set_is_free h false).
    split; [apply wf_set_is_free; assumption|]. split; [auto|].
    split; [exact Hin|]. split; [apply lookup_insert_eq|]. simpl.
    split; [reflexivity|]. split; [exact Hle|]. split; [exact Hlo|].
    split; [lia | auto].
  - destruct (decide (heap_base s <= brk s + to_intptr (wrap (sizeof_header_t + sz))
                        <= heap_limit s)) as [Hwin | Hwin].
    + destruct (malloc_grow s sz l Hwf Hsz Hfind Hwin)
        as (s1 & E & Hok1 & HB & _ & _ & Hbrk & _ & Hbase & _).
      rewrite E in Hm. injection Hm as <- <-.
      replace (brk s + sizeof_header_t - sizeof_header_t) with (brk s) by lia.
      rewrite grow_increment in Hbrk by (try assumption; lia).
      exists (l ++ [brk s]), (Header sz false NULL).
      split; [apply (malloc_grow_wf s s1 l sz); try assumption; lia|].
      split; [intros x Hx; apply elem_of_app; auto|].
      split. { apply elem_of_app. right. apply list_elem_of_singleton. reflexivity. }
      split; [exact HB|]. simpl. split; [reflexivity|]. split; [lia|].
      apply wf_window in Hwf. split; [lia|]. split; lia.
    + rewrite (malloc_fail s sz l Hok Hsz Hfind Hwin) in Hm.
      injection Hm as _ <-. contradiction.
Qed.

(** [free] touches no block but its own. *)
Lemma free_others (s s' : state) (l : list Z) (block : Z) :
  wf s l -> block - sizeof_header_t ∈ l -> free s block = Ret s' ->
  (forall x h, x ∈ l -> x <> block - sizeof_header_t ->
     hdrs s !! x = Some h ->
     exists h', hdrs s' !! x = Some h' /\ size h' = size h /\
                is_free h' = is_free h) /\
  exists l', wf s' l' /\
    ((l' = l /\ brk s' = brk s) \/
     (l = l' ++ [block - sizeof_header_t] /\ brk s' = block - sizeof_header_t)).
Proof.
  intros Hwf Hin Hf.
  destruct (wf_elem _ _ _ Hwf Hin) as (h & Hm & _).
  destruct (decide (block + size h = brk s)) as [E | E].
  - destruct (free_wf_release s l block h Hwf Hin Hm E)
      as (l0 & s1 & Hl & Hf1 & Hwf1 & Hbrk & _ & Hold & _).
    rewrite Hf1 in Hf. injection Hf as <-. split.
    + intros x hx Hx Hne Hlk. rewrite Hl in Hx.
      apply elem_of_app in Hx as [Hx | Hx].
      * rewrite (Hold x hx Hx Hlk). eexists. split; [reflexivity|]. split; reflexivity.
      * apply list_elem_of_singleton in Hx. contradiction.
    + exists l0. split; [exact Hwf1|]. right. auto.
  - destruct (free_wf_mark s l block h Hwf Hin Hm E) as (Hf1 & Hwf1).
    rewrite Hf1 in Hf. injection Hf as <-. split.
    + intros x hx Hx Hne Hlk. simpl. rewrite lookup_insert_ne by congruence. eauto.
    + exists l. split; [exact Hwf1|]. left. auto.
Qed.

Lemma two_blocks_wf : wf two_blocks [4096; 4220].
Proof.
  unfold wf, two_blocks. simpl.
  split.
  { split; [reflexivity|]. split; [discriminate|].
    eexists. split; [reflexivity|]. simpl.
    split; [reflexivity|]. split; [discriminate|].
    eexists. split; reflexivity. }
  split; [reflexivity|].
  split.
  { split; [lia|]. eexists. split; [reflexivity|]. simpl. split; [lia|].
    split; [unfold sizeof_header_t; lia|].
    eexists. split; [reflexivity|]. simpl. split; [lia|].
    unfold sizeof_header_t. lia. }
  unfold INTPTR_BOUND. lia.
Defined.

Lemma one_block_reachable : reachable 4096 8192 one_block.
Proof.
  apply (reach_call 4096 8192 (init 4096 8192) one_block (Malloc 100) 4120).
  - apply reach_init.
  - unfold valid_call, fits_intptr, sizeof_header_t, INTPTR_BOUND. lia.
  - reflexivity.
Defined.

Lemma one_block_tiled : tiled one_block [4096].
Proof.
  split; [exact one_block_wf|].
  simpl. split; [reflexivity|]. eexists. split; reflexivity.
Defined.

(** * Properties beyond the claims *)

(** X1. Whatever valid calls a process has made (sizes whose footprint fits
    [intptr_t], pointers that are [NULL] or still linked), the chain is
    intact: the walk from [head] visits a list of nodes without repetition,
    [head] and [tail] are [NULL] exactly when that list is empty, and
    otherwise [tail] is its last node and has a [NULL] next link. *)
Theorem reachable_chain_integrity (base limit : Z) (s : state) :
  0 < base -> base <= limit -> limit < INTPTR_BOUND ->
  reachable base limit s ->
  exists l,
    chain_at (hdrs s) (head s) l /\ NoDup l /\
    (head s = NULL <-> l = []) /\
    (tail s = NULL <-> l = []) /\
    (l <> [] ->
       last l = Some (tail s) /\
       exists ht, hdrs s !! tail s = Some ht /\ next ht = NULL).
Proof.
  intros H1 H2 H3 Hr.
  destruct (reachable_tiled base limit s H1 H2 H3 Hr) as (l & (Hwf & _) & _).
  pose proof (wf_chain_ok s l Hwf) as Hok.
  destruct (chain_ok_integrity s l Hok) as (Hh & Ht & Hnd & Hlast).
  exists l. destruct Hok as (Hc & _). auto.
Qed.

Lemma reachable_chain_integrity_witness :
  exists l,
    chain_at (hdrs one_block) (head one_block) l /\ NoDup l /\
    (head one_block = NULL <-> l = []) /\
    (tail one_block = NULL <-> l = []) /\
    (l <> [] ->
       last l = Some (tail one_block) /\
       exists ht, hdrs one_block !! tail one_block = Some ht /\ next ht = NULL).
Proof.
  apply (reachable_chain_integrity 4096 8192 one_block).
  - lia.
  - lia.
  - unfold INTPTR_BOUND. lia.
  - exact one_block_reachable.
Defined.

(** X2. After any valid calls the blocks of the chain tile the heap: the
    first header sits at the initial break, every other header starts where
    the payload before it ends, and the break is the end of the last
    payload.  So chain order is address order, and the break is the initial
    break plus the footprints of the linked blocks; it stays inside the
    window of [sbrk]. *)
Theorem reachable_heap_tiled (base limit : Z) (s : state) :
  0 < base -> base <= limit -> limit < INTPTR_BOUND ->
  reachable base limit s ->
  exists l,
    chain_at (hdrs s) (head s) l /\
    packed (hdrs s) base l (brk s) /\
    StronglySorted Z.lt l /\
    brk s = base + heap_used (hdrs s) l /\
    base <= brk s <= limit.
Proof.
  intros H1 H2 H3 Hr.
  destruct (reachable_tiled base limit s H1 H2 H3 Hr) as (l & (Hwf & Hp) & Hb & Hl).
  exists l. rewrite Hb in Hp.
  split; [exact (proj1 Hwf)|]. split; [exact Hp|].
  split. { destruct Hwf as (_ & _ & Hlay & _). eapply layout_sorted; exact Hlay. }
  split; [apply (packed_used _ _ _ _ Hp)|].
  apply wf_window in Hwf. lia.
Qed.

Lemma reachable_heap_tiled_witness :
  exists l,
    chain_at (hdrs one_block) (head one_block) l /\
    packed (hdrs one_block) 4096 l (brk one_block) /\
    StronglySorted Z.lt l /\
    brk one_block = 4096 + heap_used (hdrs one_block) l /\
    4096 <= brk one_block <= 8192.
Proof.
  apply (reachable_heap_tiled 4096 8192 one_block).
  - lia.
  - lia.
  - unfold INTPTR_BOUND. lia.
  - exact one_block_reachable.
Defined.

(** X3. From a state reached by valid calls every further valid call
    returns: no walk of the chain runs forever and no header is read where
    none was written. *)
Theorem reachable_calls_return (base limit : Z) (s : state) (c : call) :
  0 < base -> base <= limit -> limit < INTPTR_BOUND ->
  reachable base limit s -> valid_call s c ->
  exists s' r, run_call s c = Ret (s', r).
Proof.
  intros H1 H2 H3 Hr Hv.
  destruct (reachable_tiled base limit s H1 H2 H3 Hr) as (l & Ht & _).
  destruct (run_call_ok s l c Ht Hv) as (s' & r & _ & Hrun & _). eauto.
Qed.

Lemma reachable_calls_return_witness :
  exists s' r, run_call one_block (Realloc 4120 200) = Ret (s', r).
Proof.
  apply (reachable_calls_return 4096 8192 one_block (Realloc 4120 200)).
  - lia.
  - lia.
  - unfold INTPTR_BOUND. lia.
  - exact one_block_reachable.
  - split.
    + right. exists [4096]. split; [exact (proj1 one_block_wf)|].
      apply elem_of_cons. left. reflexivity.
    + unfold fits_intptr, sizeof_header_t, INTPTR_BOUND. lia.
Defined.

(** X4. When [malloc] returns a non-null pointer for a request whose
    footprint fits [intptr_t], the pointer is the payload of a linked block
    that is marked in use, stores a size at least the request, and lies,
    header and payload, between the bottom of the heap and the break.  The
    break has not moved, or has moved up by exactly the header size plus the
    request. *)
Theorem malloc_grants_block (s s' : state) (l : list Z) (sz q : Z) :
  wf s l -> fits_intptr sz -> malloc s sz = Ret (s', q) -> q <> NULL ->
  exists l' h,
    wf s' l' /\
    q - sizeof_header_t ∈ l' /\
    hdrs s' !! (q - sizeof_header_t) = Some h /\
    is_free h = false /\ sz <= size h /\
    heap_base s' <= q - sizeof_header_t /\ q + size h <= brk s' /\
    (brk s' = brk s \/ brk s' = brk s + sizeof_header_t + sz).
Proof.
  intros Hwf Hv Hm Hq.
  destruct (malloc_grant s s' l sz q Hwf Hv Hm Hq)
    as (l' & h & H1 & _ & H2). exists l', h. auto.
Qed.

Lemma malloc_grants_block_witness :
  exists l' h,
    wf grown_block l' /\
    4244 - sizeof_header_t ∈ l' /\
    hdrs grown_block !! (4244 - sizeof_header_t) = Some h /\
    is_free h = false /\ 200 <= size h /\
    heap_base grown_block <= 4244 - sizeof_header_t /\
    4244 + size h <= brk grown_block /\
    (brk grown_block = brk one_block \/
     brk grown_block = brk one_block + sizeof_header_t + 200).
Proof.
  apply (malloc_grants_block one_block grown_block [4096] 200 4244).
  - exact one_block_wf.
  - unfold fits_intptr, sizeof_header_t, INTPTR_BOUND. lia.
  - reflexivity.
  - discriminate.
Defined.



(** X6. [malloc] changes nothing but the block it returns: no payload byte
    is written, every other block of the chain keeps its stored size and
    its flag, and the chain is the old one, with the returned block added
    behind it when it is new. *)
Theorem malloc_changes_only_its_block (s s' : state) (l : list Z) (sz q : Z) :
  wf s l -> malloc s sz = Ret (s', q) ->
  bytes s' = bytes s /\
  (forall x h, x ∈ l -> x <> q - sizeof_header_t -> hdrs s !! x = Some h ->
     exists h', hdrs s' !! x = Some h' /\ size h' = size h /\
                is_free h' = is_free h) /\
  exists l', chain_ok s' l' /\ (l' = l \/ l' = l ++ [q - sizeof_header_t]).
Proof.
  intros Hwf Hm. pose proof sizeof_header_t_pos as Hhdr.
  split; [exact (proj1 (malloc_keeps _ _ _ _ Hm))|].
  pose proof (wf_chain_ok s l Hwf) as Hok.
  assert (Hsame : bytes s = bytes s /\
            (forall x h, x ∈ l -> x <> q - sizeof_header_t ->
               hdrs s !! x = Some h ->
               exists h', hdrs s !! x = Some h' /\ size h' = size h /\
                          is_free h' = is_free h) /\
            exists l', chain_ok s l' /\ (l' = l \/ l' = l ++ [q - sizeof_header_t])).
  { split; [reflexivity|]. split; [eauto|]. exists l. auto. }
  destruct (decide (sz = 0)) as [-> | Hsz].
  { rewrite malloc_zero in Hm. injection Hm as <- <-. exact (proj2 Hsame). }
  destruct (find (fits (hdrs s) sz) l) as [y|] eqn:Hfind.
  - destruct (malloc_reuse s sz l y Hok Hsz Hfind) as (hy & Hy & _ & _ & E).
    rewrite E in Hm. injection Hm as <- <-.
    replace (y + sizeof_header_t - sizeof_header_t) with y by lia.
    split.
    + intros x h _ Hne Hlk. simpl. rewrite lookup_insert_ne by congruence. eauto.
    + exists l. split; [apply chain_ok_set_is_free; assumption | auto].
  - destruct (decide (heap_base s <= brk s + to_intptr (wrap (sizeof_header_t + sz))
                        <= heap_limit s)) as [Hwin | Hwin].
    + destruct (malloc_grow s sz l Hwf Hsz Hfind Hwin)
        as (s2 & E & Hok2 & _ & Hold & _).
      rewrite E in Hm. injection Hm as <- <-.
      replace (brk s + sizeof_header_t - sizeof_header_t) with (brk s) by lia.
      split.
      * intros x h Hx _ Hlk. rewrite (Hold x h Hx Hlk).
        eexists. split; [reflexivity|]. split; reflexivity.
      * exists (l ++ [brk s]). auto.
    + rewrite (malloc_fail s sz l Hok Hsz Hfind Hwin) in Hm.
      injection Hm as <- <-. exact (proj2 Hsame).
Qed.

Lemma malloc_changes_only_its_block_witness :
  bytes grown_block = bytes one_block /\
  (forall x h, x ∈ [4096] -> x <> 4244 - sizeof_header_t ->
     hdrs one_block !! x = Some h ->
     exists h', hdrs grown_block !! x = Some h' /\ size h' = size h /\
                is_free h' = is_free h) /\
  exists l', chain_ok grown_block l' /\
             (l' = [4096] \/ l' = [4096] ++ [4244 - sizeof_header_t]).
Proof.
  apply (malloc_changes_only_its_block one_block grown_block [4096] 200 4244).
  - exact one_block_wf.
  - reflexivity.
Defined.

(** X7. [free] of a linked block touches no other block and no payload
    byte: every other block of the chain keeps its stored size and flag.
    Either the chain and the break stay as they are, or the freed block was
    the last one, it alone leaves the chain and the break drops to its
    header; a free block in front of it is not released with it. *)
Theorem free_changes_only_its_block (s s' : state) (l : list Z) (block : Z) :
  wf s l -> block - sizeof_header_t ∈ l -> free s block = Ret s' ->
  bytes s' = bytes s /\
  (forall x h, x ∈ l -> x <> block - sizeof_header_t ->
     hdrs s !! x = Some h ->
     exists h', hdrs s' !! x = Some h' /\ size h' = size h /\
                is_free h' = is_free h) /\
  exists l', wf s' l' /\
    ((l' = l /\ brk s' = brk s) \/
     (l = l' ++ [block - sizeof_header_t] /\
      brk s' = block - sizeof_header_t)).
Proof.
  intros Hwf Hin Hf. split; [exact (free_bytes _ _ _ Hf)|].
  exact (free_others s s' l block Hwf Hin Hf).
Qed.

Lemma free_changes_only_its_block_witness :
  bytes two_blocks_released = bytes two_blocks /\
  (forall x h, x ∈ [4096; 4220] -> x <> 4244 - sizeof_header_t ->
     hdrs two_blocks !! x = Some h ->
     exists h', hdrs two_blocks_released !! x = Some h' /\
                size h' = size h /\ is_free h' = is_free h) /\
  exists l', wf two_blocks_released l' /\
    ((l' = [4096; 4220] /\ brk two_blocks_released = brk two_blocks) \/
     ([4096; 4220] = l' ++ [4244 - sizeof_header_t] /\
      brk two_blocks_released = 4244 - sizeof_header_t)).
Proof.
  apply (free_changes_only_its_block two_blocks two_blocks_released
           [4096; 4220] 4244).
  - exact two_blocks_wf.
  - apply elem_of_cons. right. apply elem_of_cons. left. reflexivity.
  - reflexivity.
Defined.

Lemma chain_at_same_head (m m' : gmap Z header_t) (a a' : Z) (l : list Z) :
  chain_at m a l -> chain_at m' a' l -> a = a'.
Proof.
  destruct l as [|x l]; simpl.
  - congruence.
  - intros (-> & _) (-> & _). reflexivity.
Qed.

(** X8. [free] of a linked block that is not the tail never moves the
    break: the block stays linked and is marked free.  From then on a
    request of any size up to its stored size is served from the chain: it
    returns a non-null payload at or below that block, and the break stays
    where it is. *)
Theorem free_inner_block_reusable (s : state) (l : list Z) (block : Z)
    (h : header_t) :
  wf s l -> block - sizeof_header_t ∈ l ->
  block - sizeof_header_t <> tail s ->
  hdrs s !! (block - sizeof_header_t) = Some h ->
  exists s',
    free s block = Ret s' /\ brk s' = brk s /\ wf s' l /\
    hdrs s' !! (block - sizeof_header_t) = Some (set_is_free h true) /\
    forall n, 0 < n <= size h ->
      exists s'' q,
        malloc s' n = Ret (s'', q) /\ q <> NULL /\ q <= block /\
        brk s'' = brk s.
Proof.
  intros Hwf Hin Hnt Hlk. pose proof sizeof_header_t_pos as Hhdr.
  assert (Hend : block + size h <> brk s).
  { intros E.
    destruct (wf_trailing_is_last s l _ h Hwf Hin Hlk) as (_ & _ & Ht); [lia|].
    congruence. }
  destruct (free_wf_mark s l block h Hwf Hin Hlk Hend) as (Hf & Hwf').
  eexists. split; [exact Hf|]. split; [reflexivity|]. split; [exact Hwf'|].
  split; [apply lookup_insert_eq|].
  intros n Hn.
  set (s' := set_hdrs s (<[block - sizeof_header_t := set_is_free h true]> (hdrs s))) in *.
  assert (Hfit : fits (hdrs s') n (block - sizeof_header_t) = true).
  { apply fits_true. eexists. split; [apply lookup_insert_eq|]. simpl.
    split; [reflexivity | lia]. }
  destruct (find_exists _ _ _ Hin Hfit) as (y & Hfind).
  destruct (malloc_reuse s' n l y (wf_chain_ok _ _ Hwf') ltac:(lia) Hfind)
    as (hy & _ & _ & _ & E).
  eexists _, (y + sizeof_header_t). split; [exact E|].
  destruct (find_elem _ _ _ Hfind) as (Hyin & _).
  destruct (wf_elem s' l y Hwf' Hyin) as (_ & _ & _ & Hlo & _).
  pose proof (wf_window _ _ Hwf') as Hw.
  pose proof (first_fit_lowest s' l n y _ Hwf' Hfind Hin Hfit) as Hle.
  split; [unfold NULL; lia|]. split; [lia | reflexivity].
Qed.

Lemma free_inner_block_reusable_witness :
  exists s',
    free grown_block 4120 = Ret s' /\ brk s' = brk grown_block /\
    wf s' [4096; 4220] /\
    hdrs s' !! (4120 - sizeof_header_t)
      = Some (set_is_free (Header 100 false 4220) true) /\
    forall n, 0 < n <= 100 ->
      exists s'' q,
        malloc s' n = Ret (s'', q) /\ q <> NULL /\ q <= 4120 /\
        brk s'' = brk grown_block.
Proof.
  apply (free_inner_block_reusable grown_block [4096; 4220] 4120
           (Header 100 false 4220)).
  - unfold wf, grown_block. simpl.
    split.
    { split; [reflexivity|]. split; [discriminate|].
      eexists. split; [reflexivity|]. simpl.
      split; [reflexivity|]. split; [discriminate|].
      eexists. split; reflexivity. }
    split; [reflexivity|].
    split.
    { split; [lia|]. eexists. split; [reflexivity|]. simpl. split; [lia|].
      split; [unfold sizeof_header_t; lia|].
      eexists. split; [reflexivity|]. simpl. split; [lia|].
      unfold sizeof_header_t. lia. }
    unfold INTPTR_BOUND. lia.
  - apply elem_of_cons. left. reflexivity.
  - discriminate.
  - reflexivity.
Defined.

(** X9. In a well-formed state [get_free_block] returns, without changing
    anything.  Its result is [NULL] exactly when no linked block is free and
    large enough; otherwise it is such a block, and among all of them the
    one of lowest address. *)
Theorem get_free_block_lowest_fit (s : state) (l : list Z) (sz : Z) :
  wf s l ->
  exists r,
    get_free_block s sz = Ret r /\
    (r = NULL <-> forall y, y ∈ l -> fits (hdrs s) sz y = false) /\
    (r <> NULL ->
       r ∈ l /\
       (exists h, hdrs s !! r = Some h /\ is_free h = true /\ sz <= size h) /\
       forall y, y ∈ l -> fits (hdrs s) sz y = true -> r <= y).
Proof.
  intros Hwf. pose proof (wf_chain_ok s l Hwf) as Hok.
  exists (first_fit (hdrs s) sz l).
  split; [apply get_free_block_spec; exact Hok|].
  unfold first_fit. destruct (find (fits (hdrs s) sz) l) as [x|] eqn:Hfind; simpl.
  - destruct (find_elem _ _ _ Hfind) as (Hin & Hfx).
    assert (Hx : x <> NULL).
    { destruct Hok as (Hc & _). eapply chain_at_nonnull; eassumption. }
    split.
    + split; [contradiction|]. intros Hnone.
      rewrite (Hnone x Hin) in Hfx. discriminate.
    + intros _. split; [exact Hin|]. split; [apply fits_true; exact Hfx|].
      intros y Hy Hfy. eapply first_fit_lowest; eassumption.
  - split.
    + split; [intros _; apply find_nothing; exact Hfind | reflexivity].
    + intros Hr. contradiction.
Qed.

Lemma get_free_block_lowest_fit_witness :
  exists r,
    get_free_block two_blocks 10 = Ret r /\
    (r = NULL <-> forall y, y ∈ [4096; 4220] -> fits (hdrs two_blocks) 10 y = false) /\
    (r <> NULL ->
       r ∈ [4096; 4220] /\
       (exists h, hdrs two_blocks !! r = Some h /\ is_free h = true /\
                  10 <= size h) /\
       forall y, y ∈ [4096; 4220] -> fits (hdrs two_blocks) 10 y = true -> r <= y).
Proof.
  apply (get_free_block_lowest_fit two_blocks [4096; 4220] 10).
  exact two_blocks_wf.
Defined.

(** X10. A block that [malloc] had to create is undone by freeing it at
    once.  In a well-formed state where no block fits a request [n > 0]
    whose footprint fits [intptr_t] and the break can still move,
    [malloc n] followed by [free] of its result puts [head], [tail] and the
    break back where they were and leaves every header of the chain and
    every payload byte as it was. *)
Theorem malloc_free_restores (s : state) (l : list Z) (n : Z) :
  wf s l -> 0 < n -> n + sizeof_header_t < INTPTR_BOUND ->
  (forall y, y ∈ l -> fits (hdrs s) n y = false) ->
  brk s + (sizeof_header_t + n) <= heap_limit s ->
  exists s1 s2,
    malloc s n = Ret (s1, brk s + sizeof_header_t) /\
    brk s1 = brk s + sizeof_header_t + n /\
    free s1 (brk s + sizeof_header_t) = Ret s2 /\
    brk s2 = brk s /\ head s2 = head s /\ tail s2 = tail s /\
    bytes s2 = bytes s /\
    (forall x, x ∈ l -> hdrs s2 !! x = hdrs s !! x) /\
    wf s2 l.
Proof.
  intros Hwf Hn Hmax Hnone Hroom. pose proof sizeof_header_t_pos as Hhdr.
  assert (Hn0 : n <> 0) by lia.
  apply find_nothing in Hnone.
  pose proof (wf_window s l Hwf) as Hwin0.
  assert (Hincr : to_intptr (wrap (sizeof_header_t + n)) = sizeof_header_t + n)
    by (apply grow_increment; assumption).
  assert (Hwin : heap_base s <= brk s + to_intptr (wrap (sizeof_header_t + n))
                   <= heap_limit s) by (rewrite Hincr; lia).
  destruct (malloc_grow s n l Hwf Hn0 Hnone Hwin)
    as (s1 & E & Hok1 & HB & Hold & _ & Hbrk & Hby & Hbase & Hlim).
  pose proof (malloc_grow_wf s s1 l n Hwf Hn Hmax E Hok1) as Hwf1.
  assert (Hx : brk s + sizeof_header_t - sizeof_header_t = brk s) by lia.
  assert (Hlk1 : hdrs s1 !! (brk s + sizeof_header_t - sizeof_header_t)
                 = Some (Header n false NULL)) by (rewrite Hx; exact HB).
  assert (Hin1 : brk s + sizeof_header_t - sizeof_header_t ∈ l ++ [brk s]).
  { rewrite Hx. apply elem_of_app. right. apply list_elem_of_singleton. reflexivity. }
  assert (Hend : brk s + sizeof_header_t + size (Header n false NULL) = brk s1).
  { rewrite Hbrk, Hincr. simpl. lia. }
  destruct (free_wf_release s1 (l ++ [brk s]) (brk s + sizeof_header_t)
              (Header n false NULL) Hwf1 Hin1 Hlk1 Hend)
    as (l0 & s2 & Hl & Hf & Hwf2 & Hbrk2 & _ & Hold2 & _ & Hby2 & _).
  rewrite Hx in Hl, Hbrk2. apply app_inj_tail in Hl as [<- _].
  exists s1, s2. split; [exact E|]. split; [rewrite Hbrk, Hincr; lia|].
  split; [exact Hf|]. split; [exact Hbrk2|].
  split. { destruct Hwf2 as (Hc2 & _). destruct Hwf as (Hc & _).
           exact (chain_at_same_head _ _ _ _ _ Hc2 Hc). }
  split. { destruct Hwf2 as (_ & Ht2 & _). destruct Hwf as (_ & Ht & _). congruence. }
  split; [congruence|]. split; [|exact Hwf2].
  intros x Hxl.
  destruct (wf_elem s l x Hwf Hxl) as (hx & Hlkx & _).
  rewrite (Hold2 x _ Hxl (Hold x hx Hxl Hlkx)), Hlkx. f_equal.
  assert (Ht : tail s = last_or_null l) by (destruct Hwf as (_ & Ht & _); exact Ht).
  rewrite <- Ht.
  destruct (decide (x = tail s)) as [Ext | Ext].
  - assert (Hne : l <> []) by (intros ->; apply elem_of_nil in Hxl; exact Hxl).
    destruct (chain_ok_integrity s l (wf_chain_ok s l Hwf)) as (_ & _ & _ & Hl').
    destruct (Hl' Hne) as (_ & ht & Hlkt & Hnt).
    rewrite <- Ext in Hlkt. rewrite Hlkx in Hlkt. injection Hlkt as <-.
    destruct hx; simpl in *; subst; reflexivity.
  - destruct hx; reflexivity.
Qed.

Lemma malloc_free_restores_witness :
  exists s1 s2,
    malloc one_block 32 = Ret (s1, brk one_block + sizeof_header_t) /\
    brk s1 = brk one_block + sizeof_header_t + 32 /\
    free s1 (brk one_block + sizeof_header_t) = Ret s2 /\
    brk s2 = brk one_block /\ head s2 = head one_block /\
    tail s2 = tail one_block /\ bytes s2 = bytes one_block /\
    (forall x, x ∈ [4096] -> hdrs s2 !! x = hdrs one_block !! x) /\
    wf s2 [4096].
Proof.
  apply (malloc_free_restores one_block [4096] 32).
  - exact one_block_wf.
  - lia.
  - unfold sizeof_header_t, INTPTR_BOUND. lia.
  - intros y Hy. apply list_elem_of_singleton in Hy. subst y. reflexivity.
  - unfold sizeof_header_t. simpl. lia.
Defined.

(** What [realloc] returns is granted like a block from [malloc]. *)
Lemma realloc_grant (s s' : state) (l : list Z) (block sz q : Z)
    (h : header_t) :
  wf s l -> block - sizeof_header_t ∈ l ->
  hdrs s !! (block - sizeof_header_t) = Some h -> is_free h = false ->
  0 < sz -> fits_intptr sz ->
  realloc s block sz = Ret (s', q) -> q <> NULL ->
  exists l' h',
    wf s' l' /\ q - sizeof_header_t ∈ l' /\
    hdrs s' !! (q - sizeof_header_t) = Some h' /\
    is_free h' = false /\ sz <= size h'.
Proof.
  intros Hwf Hin Hlk Hlive Hsz Hv Hr Hq. pose proof sizeof_header_t_pos as Hhdr.
  destruct (wf_elem s l _ Hwf Hin) as (h0 & Hlk0 & _ & Hlo & _).
  pose proof (wf_window s l Hwf) as Hwin.
  unfold realloc in Hr.
  replace (block =? NULL) with false in Hr
    by (symmetry; apply Z.eqb_neq; unfold NULL; lia).
  replace (sz =? 0) with false in Hr by (symmetry; apply Z.eqb_neq; lia).
  simpl in Hr. rewrite Hlk in Hr.
  destruct (sz <=? size h) eqn:Ele.
  { injection Hr as <- <-. apply Z.leb_le in Ele. exists l, h. auto. }
  destruct (malloc s sz) as [[s1 ret]| |] eqn:Hm; simpl in Hr; try discriminate.
  destruct (ret =? NULL) eqn:Eret; simpl in Hr.
  { injection Hr as _ <-. apply Z.eqb_eq in Eret. contradiction. }
  apply Z.eqb_neq in Eret.
  destruct (malloc_grant s s1 l sz ret Hwf Hv Hm Eret)
    as (l1 & hq & Hwf1 & Hsub & Hqin & Hqlk & Hqlive & Hqsz & _).
  destruct (malloc_keeps_live s s1 l _ sz ret h Hwf Hin Hlk Hlive Hm) as (Hne & _).
  destruct (hdrs s1 !! (block - sizeof_header_t)) as [h1|]; [|discriminate].
  destruct (free _ block) as [s3| |] eqn:Hf; simpl in Hr; try discriminate.
  injection Hr as <- <-.
  destruct (free_others _ s3 l1 block (wf_set_bytes _ _ _ Hwf1) (Hsub _ Hin) Hf)
    as (Hoth & l3 & Hwf3 & Hl3).
  destruct (Hoth (ret - sizeof_header_t) hq Hqin ltac:(lia) Hqlk)
    as (h' & Hlk' & Hs' & Hf').
  exists l3, h'. split; [exact Hwf3|]. split.
  { destruct Hl3 as [(-> & _) | (Hl3 & _)]; [exact Hqin|].
    rewrite Hl3 in Hqin. apply elem_of_app in Hqin as [Hqin | Hqin]; [exact Hqin|].
    apply list_elem_of_singleton in Hqin. lia. }
  split; [exact Hlk'|]. split; [congruence | lia].
Qed.

(** X11. When [realloc] of a block in use returns a non-null pointer for a
    request [sz > 0] whose footprint fits [intptr_t], that pointer is the
    payload of a linked block that is in use and stores a size of at least
    [sz], also after the old block has been freed on the way; the state is
    well-formed again. *)
Theorem realloc_grants_block (s s' : state) (l : list Z) (block sz q : Z)
    (h : header_t) :
  wf s l -> block - sizeof_header_t ∈ l ->
  hdrs s !! (block - sizeof_header_t) = Some h -> is_free h = false ->
  0 < sz -> fits_intptr sz ->
  realloc s block sz = Ret (s', q) -> q <> NULL ->
  exists l' h',
    wf s' l' /\ q - sizeof_header_t ∈ l' /\
    hdrs s' !! (q - sizeof_header_t) = Some h' /\
    is_free h' = false /\ sz <= size h'.
Proof.
  intros Hwf Hin Hlk Hlive Hsz Hv Hr Hq.
  exact (realloc_grant s s' l block sz q h Hwf Hin Hlk Hlive Hsz Hv Hr Hq).
Qed.

Lemma realloc_grants_block_witness :
  exists l' h',
    wf two_blocks_moved l' /\ 4120 - sizeof_header_t ∈ l' /\
    hdrs two_blocks_moved !! (4120 - sizeof_header_t) = Some h' /\
    is_free h' = false /\ 50 <= size h'.
Proof.
  apply (realloc_grants_block two_blocks two_blocks_moved [4096; 4220]
           4244 50 4120 (Header 8 false NULL)).
  - exact two_blocks_wf.
  - apply elem_of_cons. right. apply elem_of_cons. left. reflexivity.
  - reflexivity.
  - reflexivity.
  - lia.
  - unfold fits_intptr, sizeof_header_t, INTPTR_BOUND. lia.
  - reflexivity.
  - discriminate.
Defined.

(** ** print_mem_list *)




(** ** strtok and the tokens of a line *)

Lemma skip_delims_facts (l : list byte) :
  (length (skip_delims l) <= length l)%nat /\
  List.filter (fun c => negb (is_delim c)) (skip_delims l)
    = List.filter (fun c => negb (is_delim c)) l /\
  (forall c r, skip_delims l = c :: r -> is_delim c = false).
Proof.
  induction l as [|c l (IH1 & IH2 & IH3)]; simpl.
  - split; [lia|]. split; [reflexivity|]. discriminate.
  - destruct (is_delim c) eqn:E; simpl.
    + split; [lia|]. split; [exact IH2 | exact IH3].
    + split; [lia|]. split; [rewrite E; reflexivity|].
      intros c' r [= <- <-]. exact E.
Qed.

Lemma scan_token_facts (l tok rest : list byte) :
  scan_token l = (tok, rest) ->
  Forall (fun c => is_delim c = false) tok /\
  (length tok + length rest <= length l)%nat /\
  List.filter (fun c => negb (is_delim c)) l
    = tok ++ List.filter (fun c => negb (is_delim c)) rest /\
  (tok = l /\ rest = [] \/
   exists d, is_delim d = true /\ l = tok ++ d :: rest).
Proof.
  revert tok rest. induction l as [|c l IH]; simpl; intros tok rest H.
  - injection H as <- <-. split; [constructor|]. split; [simpl; lia|]. auto.
  - destruct (is_delim c) eqn:E.
    + injection H as <- <-. split; [constructor|]. split; [simpl; lia|].
      simpl. split; [reflexivity|]. right. exists c. auto.
    + destruct (scan_token l) as [tok' rest'] eqn:Es. injection H as <- <-.
      destruct (IH tok' rest' eq_refl) as (H1 & H2 & H3 & H4).
      split; [constructor; assumption|]. split; [simpl; lia|].
      simpl. rewrite H3. split; [reflexivity|].
      destruct H4 as [(-> & ->) | (d & Hd & ->)]; [auto|].
      right. exists d. auto.
Qed.

(** What one call of [strtok] returns. *)
Lemma strtok_Some (l tok rest : list byte) :
  strtok l = Some (tok, rest) ->
  tok <> [] /\ Forall (fun c => is_delim c = false) tok /\
  (length rest < length l)%nat /\
  List.filter (fun c => negb (is_delim c)) l
    = tok ++ List.filter (fun c => negb (is_delim c)) rest.
Proof.
  unfold strtok. destruct (skip_delims_facts l) as (H1 & H2 & H3).
  destruct (skip_delims l) as [|c r] eqn:Es; [discriminate|].
  intros Hsome.
  assert (Hscan : scan_token (c :: r) = (tok, rest)) by congruence.
  clear Hsome. pose proof (H3 c r eq_refl) as Hc.
  destruct (scan_token_facts _ _ _ Hscan) as (F1 & F2 & F3 & _).
  split.
  { intros ->. simpl in Hscan. rewrite Hc in Hscan.
    destruct (scan_token r). discriminate. }
  split; [exact F1|]. split.
  { assert (length tok <> 0)%nat.
    { destruct tok; [|simpl; lia]. simpl in Hscan. rewrite Hc in Hscan.
      destruct (scan_token r). discriminate. }
    lia. }
  rewrite <- H2. exact F3.
Qed.

Lemma strtok_None (l : list byte) :
  strtok l = None -> List.filter (fun c => negb (is_delim c)) l = [].
Proof.
  unfold strtok. destruct (skip_delims_facts l) as (_ & H2 & _).
  destruct (skip_delims l) as [|c r] eqn:Es; [|discriminate].
  intros _. rewrite <- H2. reflexivity.
Qed.

Lemma strtok_fuel (l : list byte) : (token_fuel (strtok l) <= length l)%nat.
Proof.
  destruct (strtok l) as [[tok rest]|] eqn:E; simpl; [|lia].
  apply strtok_Some in E as (_ & _ & H & _). lia.
Qed.

(** More fuel than the pending calls need changes nothing. *)
Lemma strtok_all_fuel (fuel1 fuel2 : nat)
    (token : option (list byte * list byte)) :
  (token_fuel token <= fuel1)%nat -> (token_fuel token <= fuel2)%nat ->
  strtok_all fuel1 token = strtok_all fuel2 token.
Proof.
  revert fuel2 token. induction fuel1 as [|f1 IH]; intros fuel2 token H1 H2.
  - destruct token as [[tok rest]|]; simpl in *; [lia|].
    destruct fuel2; reflexivity.
  - destruct token as [[tok rest]|]; simpl in *.
    + destruct fuel2 as [|f2]; [lia|]. simpl. f_equal.
      pose proof (strtok_fuel rest). apply IH; lia.
    + destruct fuel2; reflexivity.
Qed.

Lemma strtok_all_length (fuel : nat) (token : option (list byte * list byte)) :
  (length (strtok_all fuel token) <= token_fuel token)%nat.
Proof.
  revert token. induction fuel as [|f IH]; intros token; simpl; [lia|].
  destruct token as [[tok rest]|]; simpl; [|lia].
  specialize (IH (strtok rest)). pose proof (strtok_fuel rest). lia.
Qed.

Lemma strtok_all_facts (fuel : nat) (l : list byte) :
  (length l < fuel)%nat ->
  Forall (fun t => t <> [] /\ Forall (fun c => is_delim c = false) t)
         (strtok_all fuel (strtok l)) /\
  concat (strtok_all fuel (strtok l))
    = List.filter (fun c => negb (is_delim c)) l.
Proof.
  revert l. induction fuel as [|f IH]; intros l Hf; [lia|]. simpl.
  destruct (strtok l) as [[tok rest]|] eqn:E.
  - destruct (strtok_Some _ _ _ E) as (H1 & H2 & H3 & H4).
    destruct (IH rest ltac:(lia)) as (IH1 & IH2).
    split; [constructor; auto|]. simpl. rewrite IH2, H4. reflexivity.
  - split; [constructor|]. simpl. symmetry. apply strtok_None. exact E.
Qed.

Lemma tokens_of_unfold (l : list byte) (tok rest : list byte) :
  strtok l = Some (tok, rest) -> tokens_of l = tok :: tokens_of rest.
Proof.
  intros E. unfold tokens_of. rewrite E.
  change (strtok_all (S (length l)) (Some (tok, rest)))
    with (tok :: strtok_all (length l) (strtok rest)).
  f_equal.
  pose proof (strtok_Some _ _ _ E) as (_ & _ & H & _).
  pose proof (strtok_fuel rest).
  apply strtok_all_fuel; lia.
Qed.

Lemma scan_token_stop (tok rest : list byte) (d : byte) :
  Forall (fun c => is_delim c = false) tok -> is_delim d = true ->
  scan_token (tok ++ d :: rest) = (tok, rest).
Proof.
  intros Ht Hd. induction Ht as [|c tok Hc _ IH]; simpl.
  - rewrite Hd. reflexivity.
  - rewrite Hc, IH. reflexivity.
Qed.

Lemma strtok_token (tok rest : list byte) (d : byte) :
  tok <> [] -> Forall (fun c => is_delim c = false) tok -> is_delim d = true ->
  strtok (tok ++ d :: rest) = Some (tok, rest).
Proof.
  intros Hne Ht Hd. unfold strtok.
  destruct tok as [|c tok]; [contradiction|].
  pose proof (Forall_inv Ht) as Hc. simpl in Hc.
  change ((c :: tok) ++ d :: rest) with (c :: (tok ++ d :: rest)).
  cbn [skip_delims]. rewrite Hc.
  change (c :: (tok ++ d :: rest)) with ((c :: tok) ++ d :: rest).
  rewrite scan_token_stop by assumption. reflexivity.
Qed.

(** ** lsh_split_line on top of the allocator *)

Lemma realloc_total (s : state) (l : list Z) (block sz : Z) :
  wf s l -> block - sizeof_header_t ∈ l -> fits_intptr sz ->
  exists s' q, realloc s block sz = Ret (s', q).
Proof.
  intros Hwf Hin (H0 & Hmax). unfold realloc.
  destruct (malloc_total s l sz Hwf) as (s1 & ret & Hm).
  destruct ((block =? NULL) || (sz =? 0)); [eauto|].
  destruct (wf_elem _ _ _ Hwf Hin) as (h & Hlk & _). rewrite Hlk.
  destruct (sz <=? size h); [eauto|].
  rewrite Hm. simpl. destruct (ret =? NULL); simpl; [eauto|].
  assert (Hwf1 : exists l1, wf s1 l1 /\ block - sizeof_header_t ∈ l1).
  { destruct (malloc_wf s s1 l sz ret Hwf H0 Hmax Hm) as [Hw | (_ & Hw)].
    - eauto.
    - exists (l ++ [brk s]). split; [exact Hw|]. apply elem_of_app. auto. }
  destruct Hwf1 as (l1 & Hwf1 & Hin1).
  destruct (wf_elem _ _ _ Hwf1 Hin1) as (h1 & Hlk1 & _). rewrite Hlk1.
  destruct (free_wf _ l1 block
              (wf_set_bytes s1 l1 (memcpy (bytes s1) ret block (size h1)) Hwf1)
              Hin1) as (s3 & _ & Hf & _).
  rewrite Hf. simpl. eauto.
Qed.




Lemma slot_writable_granted (s : state) (tokens bufsize position : Z)
    (h : header_t) :
  hdrs s !! (tokens - sizeof_header_t) = Some h -> is_free h = false ->
  bufsize * sizeof_ptr <= size h -> 0 <= position < bufsize ->
  slot_writable s tokens position = true.
Proof.
  intros Hlk Hlive Hcap Hpos. unfold slot_writable. rewrite Hlk, Hlive. simpl.
  apply andb_true_iff. split; [apply Z.leb_le; lia|].
  apply Z.leb_le. unfold sizeof_ptr in *. lia.
Qed.

(** The loop never writes outside the block of the array, and ends with
    the tokens in consecutive slots and an empty slot behind them. *)
Lemma lsh_split_loop_ok (fuel : nat) :
  forall (s : state) (l : list Z) (tokens bufsize position : Z)
         (arr : gmap Z (list byte)) (token : option (list byte * list byte))
         (h : header_t),
  wf s l -> tokens - sizeof_header_t ∈ l ->
  hdrs s !! (tokens - sizeof_header_t) = Some h -> is_free h = false ->
  bufsize * sizeof_ptr <= size h ->
  0 <= position < bufsize -> bufsize <= position + LSH_TOK_BUFSIZE ->
  position + Z.of_nat (token_fuel token) + 2 * LSH_TOK_BUFSIZE <= INT_MAX ->
  (token_fuel token < fuel)%nat ->
  lsh_split_loop fuel s tokens bufsize position arr token
    = Ret (Exited EXIT_FAILURE) \/
  exists s' l' p h',
    lsh_split_loop fuel s tokens bufsize position arr token
      = Ret (Returned
               (s', p,
                delete (position + Z.of_nat (length (strtok_all fuel token)))
                       (fill_slots arr position (strtok_all fuel token)))) /\
    wf s' l' /\ p - sizeof_header_t ∈ l' /\
    hdrs s' !! (p - sizeof_header_t) = Some h' /\ is_free h' = false /\
    (position + Z.of_nat (length (strtok_all fuel token)) + 1) * sizeof_ptr
      <= size h'.
Proof.
  induction fuel as [|f IH];
    intros s l tokens bufsize position arr token h
           Hwf Hin Hlk Hlive Hcap Hpos Hbuf Hint Hfuel; [lia|].
  pose proof (slot_writable_granted s tokens bufsize position h
                Hlk Hlive Hcap Hpos) as Hw.
  destruct token as [[tok rest]|]; cbn [lsh_split_loop strtok_all]; rewrite Hw.
  - cbn [token_fuel] in Hint, Hfuel.
    pose proof (strtok_fuel rest) as Hrest.
    assert (Hstep :
      forall s1 l1 p h1 bufsize1,
        wf s1 l1 -> p - sizeof_header_t ∈ l1 ->
        hdrs s1 !! (p - sizeof_header_t) = Some h1 -> is_free h1 = false ->
        bufsize1 * sizeof_ptr <= size h1 ->
        position + 1 < bufsize1 -> bufsize1 <= position + 1 + LSH_TOK_BUFSIZE ->
        lsh_split_loop f s1 p bufsize1 (position + 1)
                       (<[position := tok]> arr) (strtok rest)
          = Ret (Exited EXIT_FAILURE) \/
        exists s' l' p' h',
          lsh_split_loop f s1 p bufsize1 (position + 1)
                         (<[position := tok]> arr) (strtok rest)
            = Ret (Returned
                     (s', p',
                      delete (position
                              + Z.of_nat (length (tok :: strtok_all f (strtok rest))))
                             (fill_slots arr position
                                (tok :: strtok_all f (strtok rest))))) /\
          wf s' l' /\ p' - sizeof_header_t ∈ l' /\
          hdrs s' !! (p' - sizeof_header_t) = Some h' /\ is_free h' = false /\
          (position + Z.of_nat (length (tok :: strtok_all f (strtok rest))) + 1)
            * sizeof_ptr <= size h').
    { intros s1 l1 p h1 bufsize1 Hwf1 Hin1 Hlk1 Hlive1 Hcap1 Hp1 Hb1.
      destruct (IH s1 l1 p bufsize1 (position + 1) (<[position := tok]> arr)
                  (strtok rest) h1 Hwf1 Hin1 Hlk1 Hlive1 Hcap1
                  ltac:(lia) Hb1 ltac:(lia) ltac:(lia))
        as [Hex | (s' & l' & p' & h' & Hrun & Hrest')]; [left; exact Hex|].
      right. exists s', l', p', h'.
      cbn [length fill_slots].
      replace (position + Z.of_nat (S (length (strtok_all f (strtok rest)))))
        with (position + 1 + Z.of_nat (length (strtok_all f (strtok rest))))
        by lia.
      split; [exact Hrun | exact Hrest']. }
    destruct (bufsize <=? position + 1) eqn:Efull.
    + apply Z.leb_le in Efull.
      replace (INT_MAX <? bufsize + LSH_TOK_BUFSIZE) with false
        by (symmetry; apply Z.ltb_ge; unfold LSH_TOK_BUFSIZE in *; lia).
      assert (Hsz : wrap ((bufsize + LSH_TOK_BUFSIZE) * sizeof_ptr)
                    = (bufsize + LSH_TOK_BUFSIZE) * sizeof_ptr).
      { apply wrap_small.
        unfold is_size_t, SIZE_MOD, LSH_TOK_BUFSIZE, sizeof_ptr, INT_MAX in *. lia. }
      rewrite Hsz.
      assert (Hv : fits_intptr ((bufsize + LSH_TOK_BUFSIZE) * sizeof_ptr)).
      { unfold fits_intptr, INTPTR_BOUND, sizeof_header_t, LSH_TOK_BUFSIZE,
          sizeof_ptr, INT_MAX in *. lia. }
      destruct (realloc_total s l tokens _ Hwf Hin Hv) as (s1 & p & Hr).
      rewrite Hr. cbn [mbind outcome_bind bind].
      destruct (Z.eqb_spec p NULL) as [-> | Hp]; [left; reflexivity|].
      assert (Hpos' : 0 < (bufsize + LSH_TOK_BUFSIZE) * sizeof_ptr)
        by (unfold LSH_TOK_BUFSIZE, sizeof_ptr; lia).
      destruct (realloc_grant s s1 l tokens _ p h Hwf Hin Hlk Hlive
                  Hpos' Hv Hr Hp)
        as (l1 & h1 & Hwf1 & Hin1 & Hlk1 & Hlive1 & Hcap1).
      apply (Hstep s1 l1 p h1); try assumption;
        unfold LSH_TOK_BUFSIZE in *; lia.
    + apply Z.leb_gt in Efull.
      apply (Hstep s l tokens h); try assumption; lia.
  - right. exists s, l, tokens, h. cbn [length fill_slots].
    rewrite Z.add_0_r. split; [reflexivity|].
    split; [exact Hwf|]. split; [exact Hin|]. split; [exact Hlk|].
    split; [exact Hlive|]. unfold sizeof_ptr in *. lia.
Qed.

Lemma lsh_split_line_ok (s : state) (l : list Z) (line : list byte) :
  wf s l -> Z.of_nat (length line) + 2 * LSH_TOK_BUFSIZE <= INT_MAX ->
  lsh_split_line s line = Ret (Exited EXIT_FAILURE) \/
  exists s' l' p h',
    lsh_split_line s line
      = Ret (Returned
               (s', p,
                delete (Z.of_nat (length (tokens_of line)))
                       (fill_slots ∅ 0 (tokens_of line)))) /\
    wf s' l' /\ p - sizeof_header_t ∈ l' /\
    hdrs s' !! (p - sizeof_header_t) = Some h' /\ is_free h' = false /\
    (Z.of_nat (length (tokens_of line)) + 1) * sizeof_ptr <= size h'.
Proof.
  intros Hwf Hlen. unfold lsh_split_line.
  assert (Hsz : wrap (LSH_TOK_BUFSIZE * sizeof_ptr) = LSH_TOK_BUFSIZE * sizeof_ptr)
    by reflexivity.
  rewrite Hsz.
  assert (Hv : fits_intptr (LSH_TOK_BUFSIZE * sizeof_ptr)).
  { unfold fits_intptr, INTPTR_BOUND, sizeof_header_t, LSH_TOK_BUFSIZE, sizeof_ptr. lia. }
  destruct (malloc_total s l (LSH_TOK_BUFSIZE * sizeof_ptr) Hwf) as (s1 & p & Hm).
  rewrite Hm. cbn [mbind outcome_bind bind].
  destruct (Z.eqb_spec p NULL) as [-> | Hp]; [left; reflexivity|].
  destruct (malloc_grant s s1 l _ p Hwf Hv Hm Hp)
    as (l1 & h1 & Hwf1 & _ & Hin1 & Hlk1 & Hlive1 & Hcap1 & _).
  pose proof (strtok_fuel line) as Hfuel.
  destruct (lsh_split_loop_ok (S (length line)) s1 l1 p LSH_TOK_BUFSIZE 0 ∅
              (strtok line) h1 Hwf1 Hin1 Hlk1 Hlive1 Hcap1)
    as [Hex | (s' & l' & p' & h' & Hrun & Hrest)];
    try (unfold LSH_TOK_BUFSIZE in *; lia).
  - left. exact Hex.
  - right. exists s', l', p', h'. rewrite !Z.add_0_l in *.
    split; [exact Hrun | exact Hrest].
Qed.

(** X13. The tokens [lsh_split_line] collects from a line: none is empty,
    none holds a delimiter, and put one after the other they are the line
    with its delimiters taken out. *)
Theorem tokens_of_line (line : list byte) :
  Forall (fun t => t <> [] /\ Forall (fun c => is_delim c = false) t)
         (tokens_of line) /\
  concat (tokens_of line) = List.filter (fun c => negb (is_delim c)) line.
Proof.
  unfold tokens_of. apply strtok_all_facts. lia.
Qed.

(** X14. Splitting undoes joining: for tokens that are not empty and hold
    no delimiter, the line made of each token followed by one delimiter
    splits into exactly those tokens, in order. *)
Theorem tokens_of_joined (toks : list (list byte)) (d : byte) :
  Forall (fun t => t <> [] /\ Forall (fun c => is_delim c = false) t) toks ->
  is_delim d = true ->
  tokens_of (concat (map (fun t => t ++ [d]) toks)) = toks.
Proof.
  intros Hall Hd. induction Hall as [|t r (Hne & Ht) _ IH].
  - reflexivity.
  - simpl. rewrite <- app_assoc. simpl.
    rewrite (tokens_of_unfold _ t (concat (map (fun t => t ++ [d]) r))).
    + f_equal. exact IH.
    + apply strtok_token; assumption.
Qed.

Lemma tokens_of_joined_witness :
  tokens_of (concat (map (fun t => t ++ [x20]) [[x6c; x73]; [x2d; x6c]]))
    = [[x6c; x73]; [x2d; x6c]].
Proof.
  apply (tokens_of_joined [[x6c; x73]; [x2d; x6c]] x20).
  - repeat constructor; discriminate.
  - reflexivity.
Defined.

(** X15. Run on top of the allocator from a well-formed state, on a line of
    fewer than [INT_MAX - 127] bytes, [lsh_split_line] never writes outside
    the block of its array and never hangs: either the process exits with
    [EXIT_FAILURE] (an allocation returned [NULL]), or it returns a pointer to
    a linked block in use whose stored size holds all the tokens and the
    terminating [NULL]; the allocator state is well-formed, and the [free]
    of that pointer in [lsh_loop] returns. *)
Theorem lsh_split_line_safe (s : state) (l : list Z) (line : list byte) :
  wf s l -> Z.of_nat (length line) + 2 * LSH_TOK_BUFSIZE <= INT_MAX ->
  lsh_split_line s line = Ret (Exited EXIT_FAILURE) \/
  exists s' l' p h' arr,
    lsh_split_line s line = Ret (Returned (s', p, arr)) /\
    wf s' l' /\ p <> NULL /\ p - sizeof_header_t ∈ l' /\
    hdrs s' !! (p - sizeof_header_t) = Some h' /\ is_free h' = false /\
    (Z.of_nat (length (tokens_of line)) + 1) * sizeof_ptr <= size h' /\
    exists s'' l'', free s' p = Ret s'' /\ wf s'' l''.
Proof.
  intros Hwf Hlen.
  destruct (lsh_split_line_ok s l line Hwf Hlen)
    as [Hex | (s' & l' & p & h' & Hrun & Hwf' & Hin & Hlk & Hlive & Hcap)];
    [left; exact Hex|].
  right. exists s', l', p, h'. eexists. split; [exact Hrun|].
  split; [exact Hwf'|]. split.
  { destruct (wf_elem s' l' _ Hwf' Hin) as (_ & _ & _ & Hlo & _).
    pose proof (wf_window s' l' Hwf'). pose proof sizeof_header_t_pos.
    unfold NULL. lia. }
  split; [exact Hin|]. split; [exact Hlk|]. split; [exact Hlive|].
  split; [exact Hcap|]. exact (free_wf s' l' p Hwf' Hin).
Qed.

Lemma lsh_split_line_safe_witness :
  lsh_split_line (init 4096 8192) sample_line = Ret (Exited EXIT_FAILURE) \/
  exists s' l' p h' arr,
    lsh_split_line (init 4096 8192) sample_line = Ret (Returned (s', p, arr)) /\
    wf s' l' /\ p <> NULL /\ p - sizeof_header_t ∈ l' /\
    hdrs s' !! (p - sizeof_header_t) = Some h' /\ is_free h' = false /\
    (Z.of_nat (length (tokens_of sample_line)) + 1) * sizeof_ptr <= size h' /\
    exists s'' l'', free s' p = Ret s'' /\ wf s'' l''.
Proof.
  apply (lsh_split_line_safe (init 4096 8192) [] sample_line).
  - apply init_wf; unfold INTPTR_BOUND; lia.
  - unfold LSH_TOK_BUFSIZE, INT_MAX. simpl. lia.
Defined.


